(** * Compensating actions and quota accounting of the [app] package

    A shallow embedding of [app/actions.go]: the actions that make up the
    app-creation and unit-scaling pipelines, the quota ledger they call
    and the pipeline executor that runs them.

    Go values are embedded as follows.
    - [int] is a [Z]; the one conversion the source performs
      ([int(uint)]) has its 64-bit wrap-around written out.
    - [interface{}] (pipeline parameters and action results) is the tagged
      union [value]; a type switch is a [match] on it.
    - a pointer [*T] is embedded by the value it points to; [VApp] and
      [VAppPtr] keep the dynamic types [App] and [*App] apart.
    - [(action.Result, error)] is [Return r err]; a failed type assertion
      or an index out of range is [Panic].
    - the database, the configuration and the other collaborators live in
      the explicit [World] that every operation threads. *)

From Stdlib Require Import ZArith String List Lia.
From stdpp Require Import gmap strings list fin_maps relations.

Local Open Scope string_scope.
Local Open Scope list_scope.
Local Open Scope Z_scope.

(** ** Errors *)

(** Go [error] values: [errors.New(msg)], [*quota.QuotaExceededError] and
    the opaque failures handed back by a collaborator. *)
Inductive error : Type :=
  | errors_New (msg : string)
  | QuotaExceededError (Requested Available : Z)
  | ExternalFailure (msg : string).

Definition Error (e : error) : string :=
  match e with
  | errors_New msg => msg
  | QuotaExceededError _ _ => "Quota exceeded."
  | ExternalFailure msg => msg
  end.

Definition ErrAppAlreadyExists : error :=
  errors_New "there is already an app with this name.".
Definition ErrAppNotFound : error := errors_New "App not found".

(** ** Package [quota] *)

Module quota.

Record Quota : Type := { Limit : Z; InUse : Z }.

(** Modelled from the spec: package [quota] is not part of the sources;
    "a sentinel value denotes unlimited". The sentinel is a negative
    limit with nothing in use. *)
Definition Unlimited : Quota := {| Limit := -1; InUse := 0 |}.

Definition IsUnlimited (q : Quota) : bool := Limit q =? Limit Unlimited.

Definition withLimit (q : Quota) (l : Z) : Quota :=
  {| Limit := l; InUse := InUse q |}.

Definition withInUse (q : Quota) (n : Z) : Quota :=
  {| Limit := Limit q; InUse := n |}.

End quota.

(** Records that embed a [quota.Quota] (the owners of the ledger). *)
Class Owner (A : Type) : Type := {
  quotaOf : A -> quota.Quota;
  setQuota : A -> quota.Quota -> A;
}.

(** ** Packages [bind], [queue], [provision], [auth] *)

Module bind.
Record EnvVar : Type := {
  Name : string;
  Value : string;
  Public : bool;
  InstanceName : string;
}.
End bind.

Module queue.
Record Message : Type := { Action : string; Args : list string }.
End queue.

Module provision.
Record Unit : Type := {
  Name : string;
  Type_ : string;
  InstanceId : string;
  Machine : Z;
  Ip : string;
}.
End provision.

Module auth.
Record User : Type := { Email : string; Quota : quota.Quota }.

Record Token : Type := { Token_ : string; AppName : string }.

(** Modelled from the spec: package [auth] is not part of the sources;
    "NotFound (owning record absent)". *)
Definition ErrUserNotFound : error := errors_New "User not found".
End auth.

#[export] Instance user_owner : Owner auth.User := {
  quotaOf := auth.Quota;
  setQuota u q := {| auth.Email := auth.Email u; auth.Quota := q |};
}.

(** ** Records of package [app] *)

Record Unit : Type := {
  UnitName : string;
  UnitType : string;
  UnitMachine : Z;
  UnitInstanceId : string;
  UnitIp : string;
  UnitState : string;
}.

(** [Unit{}], the zero value. *)
Definition emptyUnit : Unit :=
  {| UnitName := ""; UnitType := ""; UnitMachine := 0;
     UnitInstanceId := ""; UnitIp := ""; UnitState := "" |}.

Record App : Type := {
  Name : string;
  Platform : string;
  Teams : list string;
  Units : list Unit;
  Env : gmap string bind.EnvVar;
  Quota : quota.Quota;
}.

Definition withQuota (a : App) (q : quota.Quota) : App :=
  {| Name := Name a; Platform := Platform a; Teams := Teams a;
     Units := Units a; Env := Env a; Quota := q |}.

Definition withUnits (a : App) (us : list Unit) : App :=
  {| Name := Name a; Platform := Platform a; Teams := Teams a;
     Units := us; Env := Env a; Quota := Quota a |}.

#[export] Instance app_owner : Owner App := {
  quotaOf := Quota;
  setQuota := withQuota;
}.

Record s3Env : Type := {
  AccessKey : string;
  SecretKey : string;
  endpoint : string;
  locationConstraint : bool;
  bucket : string;
}.

(** ** [interface{}] *)

Inductive value : Type :=
  | VNil
  | VApp (a : App)
  | VAppPtr (a : App)
  | VUser (u : auth.User)
  | VUserPtr (u : auth.User)
  | VInt (n : Z)
  | VUint (n : Z)
  | VString (s : string)
  | VWriter (buf : string)
  | VStringMap (m : gmap string string)
  | VS3EnvPtr (e : s3Env)
  | VAddUnitsResultPtr (units : list provision.Unit).

(** [int(u)] for a [uint] on a 64-bit platform. *)
Definition int_of_uint (u : Z) : Z :=
  if u <? 2 ^ 63 then u else u - 2 ^ 64.

(** ** The world the actions run in *)

Inductive event : Type :=
  | EvAppsUpdateUnits (name : string) (units : list Unit) (err : option error)
  | EvGoEnqueue (msgs : list queue.Message)
  | EvCreateApplicationToken (appName : string)
  | EvSetEnvsToApp (appName : string) (envs : list bind.EnvVar)
      (publicOnly useQueue : bool).

Record World : Type := {
  (** what [db.Conn()] answers: [None] when the connection opens *)
  dbConnErr : option error;
  (** the [apps] collection, with its unique index on the name *)
  apps : gmap string App;
  (** the [users] collection, keyed by e-mail *)
  users : gmap string auth.User;
  (** the keys for which [config.GetInt] answers without an error *)
  configInt : gmap string Z;
  (** the keys for which [config.GetString] answers without an error *)
  configString : gmap string string;
  (** failures injected into the collaborators *)
  insertErr : option error;
  updateErr : option error;
  tokenErr : option error;
  setEnvsErr : option error;
  (** the token the next [auth.CreateApplicationToken] hands out *)
  nextToken : string;
  (** calls made to the collaborators, oldest first *)
  log : list event;
}.

Definition withApps (w : World) (m : gmap string App) : World :=
  {| dbConnErr := dbConnErr w; apps := m; users := users w;
     configInt := configInt w; configString := configString w;
     insertErr := insertErr w; updateErr := updateErr w;
     tokenErr := tokenErr w; setEnvsErr := setEnvsErr w;
     nextToken := nextToken w; log := log w |}.

Definition withUsers (w : World) (m : gmap string auth.User) : World :=
  {| dbConnErr := dbConnErr w; apps := apps w; users := m;
     configInt := configInt w; configString := configString w;
     insertErr := insertErr w; updateErr := updateErr w;
     tokenErr := tokenErr w; setEnvsErr := setEnvsErr w;
     nextToken := nextToken w; log := log w |}.

Definition emit (ev : event) (w : World) : World :=
  {| dbConnErr := dbConnErr w; apps := apps w; users := users w;
     configInt := configInt w; configString := configString w;
     insertErr := insertErr w; updateErr := updateErr w;
     tokenErr := tokenErr w; setEnvsErr := setEnvsErr w;
     nextToken := nextToken w; log := log w ++ [ev] |}.

(** ** Package [db] and the collections *)

Module db.

(** [db.Conn()] *)
Definition Conn (w : World) : option error := dbConnErr w.

(** Modelled from the spec: the [mgo] driver is a collaborator;
    "insert(record) fails distinctly on duplicate unique key".
    [inl tt] is the duplicate-key error ([mgo.IsDup]), [inr e] any
    other failure. *)
Definition AppsInsert (a : App) (w : World)
  : option (unit + error) * World :=
  match apps w !! Name a with
  | Some _ => (Some (inl tt), w)
  | None =>
      match insertErr w with
      | Some e => (Some (inr e), w)
      | None => (None, withApps w (<[Name a := a]> (apps w)))
      end
  end.

(** [conn.Apps().Remove(bson.M{"name": name})] *)
Definition AppsRemove (name : string) (w : World) : World :=
  withApps w (delete name (apps w)).

(** Modelled from the spec: "find-by-name(name) -> record | NotFound". *)
Definition AppsFind (name : string) (w : World) : option App :=
  apps w !! name.

(** [conn.Apps().Update(bson.M{"name": name},
      bson.M{"$set": bson.M{"units": units}})] *)
Definition AppsUpdateUnits (name : string) (us : list Unit) (w : World)
  : option error * World :=
  match updateErr w with
  | Some e => (Some e, emit (EvAppsUpdateUnits name us (Some e)) w)
  | None =>
      match apps w !! name with
      | None =>
          let e := ExternalFailure "not found" in
          (Some e, emit (EvAppsUpdateUnits name us (Some e)) w)
      | Some a =>
          (None, emit (EvAppsUpdateUnits name us None)
                   (withApps w (<[name := withUnits a us]> (apps w))))
      end
  end.

End db.

(** Modelled from the spec: [App.Get] is not part of the sources;
    "find-by-name(name) -> record | NotFound". The receiver is
    overwritten with the stored record. *)
Definition App_Get (a : App) (w : World) : App * option error :=
  match db.Conn w with
  | Some e => (a, Some e)
  | None =>
      match db.AppsFind (Name a) w with
      | Some stored => (stored, None)
      | None => (a, Some (ExternalFailure "not found"))
      end
  end.

(** ** Package [config] *)

Module config.
Definition GetInt (key : string) (w : World) : option Z := configInt w !! key.
Definition GetString (key : string) (w : World) : string :=
  default "" (configString w !! key).
End config.

(** ** The quota ledger

    Modelled from the spec: [reserveUnits], [releaseUnits] (file
    [app/quota.go]) and [auth.ReserveApp], [auth.ReleaseApp] are not part
    of the sources; only their tests are. The ledger follows section 4.1:
    a caller reads the owner, decides on the snapshot it read, and writes
    with a conditional update that succeeds only if [inUse] still has the
    value that was read; on a conflict it starts again. One [step] is one
    access to the persistent store, so that the callers of a shared
    record can be interleaved access by access. *)

Module ledger.

Inductive op : Type := Reserve | Release.

(** Where a caller stands: about to read the owner, holding the quota
    it read, or returned. *)
Inductive pc : Type :=
  | Start
  | Read (snapshot : quota.Quota)
  | Finished (err : option error).

(** The store access a step performs. *)
Inductive access : Type :=
  | Find
  | Increment
  | Rejected
  | ConditionalUpdate (ok : bool).

Definition ErrInsufficientReservation : error :=
  errors_New "Not enough reserved units".

Section Store.
Context {A : Type} `{Owner A}.

Definition setInUse (a : A) (n : Z) : A :=
  setQuota a (quota.withInUse (quotaOf a) n).

(** "conditional-update(name, expectedCurrentValue, newValue) ->
    ok|conflict": [None] is the conflict. *)
Definition conditionalUpdate (name : string) (expected new : Z)
    (s : gmap string A) : option (gmap string A) :=
  match s !! name with
  | Some a =>
      if decide (quota.InUse (quotaOf a) = expected)
      then Some (<[name := setInUse a new]> s)
      else None
  | None => None
  end.

(** "persists inUse += amount unconditionally" *)
Definition increment (name : string) (amount : Z)
    (s : gmap string A) : option (gmap string A) :=
  match s !! name with
  | Some a =>
      Some (<[name := setInUse a (quota.InUse (quotaOf a) + amount)]> s)
  | None => None
  end.

(** The write of a caller that decided to go ahead. *)
Definition commit (name : string) (q : quota.Quota) (new : Z)
    (s : gmap string A) : access * pc * gmap string A :=
  match conditionalUpdate name (quota.InUse q) new s with
  | Some s' => (ConditionalUpdate true, Finished None, s')
  | None => (ConditionalUpdate false, Start, s)
  end.

Definition step (notFound : error) (o : op) (name : string) (amount : Z)
    (p : pc) (s : gmap string A)
  : option (access * pc * gmap string A) :=
  match p with
  | Finished _ => None
  | Start =>
      match s !! name with
      | None => Some (Find, Finished (Some notFound), s)
      | Some a => Some (Find, Read (quotaOf a), s)
      end
  | Read q =>
      match o with
      | Reserve =>
          if quota.IsUnlimited q then
            match increment name amount s with
            | Some s' => Some (Increment, Finished None, s')
            | None => Some (Increment, Finished (Some notFound), s)
            end
          else
            let available := quota.Limit q - quota.InUse q in
            if amount >? available then
              Some (Rejected,
                    Finished (Some (QuotaExceededError amount available)),
                    s)
            else Some (commit name q (quota.InUse q + amount) s)
      | Release =>
          if amount >? quota.InUse q then
            Some (Rejected, Finished (Some ErrInsufficientReservation), s)
          else Some (commit name q (quota.InUse q - amount) s)
      end
  end.

(** One caller alone, run until it returns: [None] when [fuel]
    accesses were not enough. The accesses made are returned with the
    result. *)
Fixpoint run (fuel : nat) (notFound : error) (o : op) (name : string)
    (amount : Z) (p : pc) (s : gmap string A)
  : option (option error * gmap string A * list access) :=
  match p with
  | Finished err => Some (err, s, [])
  | _ =>
      match fuel with
      | O => None
      | S fuel' =>
          match step notFound o name amount p s with
          | None => None
          | Some (a, p', s') =>
              match run fuel' notFound o name amount p' s' with
              | Some (err, s'', tr) => Some (err, s'', a :: tr)
              | None => None
              end
          end
      end
  end.

(** Several callers of the same operation on the same owner: caller
    [i] makes one access. *)
Record system : Type := {
  store : gmap string A;
  callers : list pc;
}.

Inductive sys_step (notFound : error) (o : op) (name : string)
    (amount : Z) : system -> system -> Prop :=
  | sys_step_caller i p a p' s' sys :
      callers sys !! i = Some p ->
      step notFound o name amount p (store sys) = Some (a, p', s') ->
      sys_step notFound o name amount sys
        {| store := s'; callers := <[i := p']> (callers sys) |}.

(** The same step as a function of the scheduler's choice. *)
Definition schedule_one (notFound : error) (o : op) (name : string)
    (amount : Z) (sys : system) (i : nat) : system :=
  match callers sys !! i with
  | Some p =>
      match step notFound o name amount p (store sys) with
      | Some (_, p', s') =>
          {| store := s'; callers := <[i := p']> (callers sys) |}
      | None => sys
      end
  | None => sys
  end.

Definition schedule (notFound : error) (o : op) (name : string)
    (amount : Z) (sys : system) (sched : list nat) : system :=
  fold_left (schedule_one notFound o name amount) sched sys.

Definition finished (p : pc) : bool :=
  match p with Finished _ => true | _ => false end.

Definition all_finished (sys : system) : bool :=
  forallb finished (callers sys).

Definition succeeded (p : pc) : bool :=
  match p with Finished None => true | _ => false end.

Definition failed (p : pc) : bool :=
  match p with Finished (Some _) => true | _ => false end.

Definition inUseOf (name : string) (s : gmap string A) : option Z :=
  (fun a => quota.InUse (quotaOf a)) <$> s !! name.

End Store.

End ledger.

(** [reserveUnits(app, quantity)] and [releaseUnits(app, quantity)] of
    [app/quota.go], for a caller that runs alone. *)
Definition reserveUnits (fuel : nat) (a : App) (quantity : Z) (w : World)
  : option (option error * World) :=
  match ledger.run fuel ErrAppNotFound ledger.Reserve (Name a) quantity
          ledger.Start (apps w) with
  | Some (err, s, _) => Some (err, withApps w s)
  | None => None
  end.

Definition releaseUnits (fuel : nat) (a : App) (quantity : Z) (w : World)
  : option (option error * World) :=
  match ledger.run fuel ErrAppNotFound ledger.Release (Name a) quantity
          ledger.Start (apps w) with
  | Some (err, s, _) => Some (err, withApps w s)
  | None => None
  end.

(** [auth.GetUserByEmail], [auth.ReserveApp] and [auth.ReleaseApp]: the
    user's quota counts apps, one per reservation. *)
Definition GetUserByEmail (email : string) (w : World) : auth.User + error :=
  match db.Conn w with
  | Some err => inr err
  | None =>
      match users w !! email with
      | Some u => inl u
      | None => inr auth.ErrUserNotFound
      end
  end.

Definition ReserveApp (fuel : nat) (u : auth.User) (w : World)
  : option (option error * World) :=
  match ledger.run fuel auth.ErrUserNotFound ledger.Reserve (auth.Email u) 1
          ledger.Start (users w) with
  | Some (err, s, _) => Some (err, withUsers w s)
  | None => None
  end.

Definition ReleaseApp (fuel : nat) (u : auth.User) (w : World)
  : option (option error * World) :=
  match ledger.run fuel auth.ErrUserNotFound ledger.Release (auth.Email u) 1
          ledger.Start (users w) with
  | Some (err, s, _) => Some (err, withUsers w s)
  | None => None
  end.

(** ** Package [action] *)

Module action.

Record FWContext : Type := { Previous : value; Params : list value }.
Record BWContext : Type := { FWResult : value; BWParams : list value }.

(** What a call of [Forward] does: it returns [(result, err)], or it
    panics (an index out of range, a failed type assertion), or it
    never returns (the retry loop of the ledger ran out of fuel). *)
Inductive outcome : Type :=
  | Return (r : value) (err : option error)
  | Panic
  | Diverge.

(** [Backward] is optional ([nil] in Go); a call that answers [None]
    did not return. *)
Record Action : Type := {
  Name : string;
  Forward : FWContext -> World -> outcome * World;
  Backward : option (BWContext -> World -> option World);
  MinParams : nat;
}.

(** Modelled from the spec: the executor (package [action]) is not part
    of the sources. Section 4.3: "for each Action in order: invoke
    forward with previous set to the seed (first Action) or the prior
    Action's result; if it returns an error, stop advancing, and unwind
    - invoke backward, in strict reverse order, on every Action already
    recorded as succeeded (not on the Action that just failed)"; section
    3: "the executor rejects shorter argument lists before running";
    an Action has "an optional backward". *)

(** The calls the executor makes, by position in the pipeline. *)
Inductive call : Type :=
  | CallForward (i : nat)
  | CallBackward (i : nat)
  | ReturnBackward (i : nat).

Inductive result : Type :=
  | Succeeded (r : value)
  | Failed (err : error)
  | Crashed.

Definition ErrNotEnoughParams : error :=
  errors_New "Not enough parameters to call Action.Forward.".

(** The execution record: the Actions whose forward succeeded, the
    latest first, each with its position and its own result. *)
Definition record : Type := list (nat * Action * value).

(** [rollback] answers the world it leaves, the calls it made and
    whether every backward returned. *)
Fixpoint rollback (params : list value) (done : record) (w : World)
  : World * list call * bool :=
  match done with
  | [] => (w, [], true)
  | (i, a, r) :: older =>
      match Backward a with
      | None => rollback params older w
      | Some bw =>
          match bw {| FWResult := r; BWParams := params |} w with
          | None => (w, [CallBackward i], false)
          | Some w' =>
              let '(w'', calls, ok) := rollback params older w' in
              (w'', CallBackward i :: ReturnBackward i :: calls, ok)
          end
      end
  end.

Definition unwind (err : error) (params : list value) (done : record)
    (w : World) : result * World * list call :=
  let '(w', calls, ok) := rollback params done w in
  (if ok then Failed err else Crashed, w', calls).

Fixpoint execute_from (i : nat) (actions : list Action)
    (params : list value) (previous : value) (done : record) (w : World)
  : result * World * list call :=
  match actions with
  | [] => (Succeeded previous, w, [])
  | a :: rest =>
      if (length params <? MinParams a)%nat then
        unwind ErrNotEnoughParams params done w
      else
        match Forward a {| Previous := previous; Params := params |} w with
        | (Return r None, w') =>
            let '(res, w'', calls) :=
              execute_from (S i) rest params r ((i, a, r) :: done) w' in
            (res, w'', CallForward i :: calls)
        | (Return _ (Some err), w') =>
            let '(res, w'', calls) := unwind err params done w' in
            (res, w'', CallForward i :: calls)
        | (_, w') => (Crashed, w', [CallForward i])
        end
  end.

(** The backward calls of an unwinding that runs to its end: for each
    recorded Action that has a backward, its call and its return. *)
Definition backwardCalls (done : record) : list call :=
  flat_map
    (fun entry : nat * Action * value =>
       match Backward entry.1.2 with
       | Some _ => [CallBackward entry.1.1; ReturnBackward entry.1.1]
       | None => []
       end)
    done.

Definition positions (done : record) : list nat :=
  map (fun entry : nat * Action * value => entry.1.1) done.

Definition Execute (actions : list Action) (params : list value)
    (seed : value) (w : World) : result * World * list call :=
  execute_from 0 actions params seed [] w.

End action.


(** ** The actions of [app/actions.go] *)

(** The dynamic types the type switches accept. *)
Definition asApp (v : value) : option App :=
  match v with
  | VApp a | VAppPtr a => Some a
  | _ => None
  end.


Definition errFirstParamApp : error :=
  errors_New "First parameter must be App or *App.".

(** [reserveUserApp] *)
Definition reserveUserApp_Forward (fuel : nat) (ctx : action.FWContext) (w : World)
  : action.outcome * World :=
  match action.Params ctx !! 0%nat with
  | None => (action.Panic, w)
  | Some (VApp app) | Some (VAppPtr app) =>
      match action.Params ctx !! 1%nat with
      | None => (action.Panic, w)
      | Some (VUser user) | Some (VUserPtr user) =>
          match GetUserByEmail (auth.Email user) w with
          | inr err => (action.Return VNil (Some err), w)
          | inl usr =>
              match ReserveApp fuel usr w with
              | None => (action.Diverge, w)
              | Some (Some err, w') => (action.Return VNil (Some err), w')
              | Some (None, w') =>
                  (action.Return
                     (VStringMap
                        (<["user" := auth.Email user]>
                           (<["app" := Name app]> ∅)))
                     None, w')
              end
          end
      | Some _ =>
          (action.Return VNil
             (Some (errors_New
                      "Third parameter must be auth.User or *auth.User.")),
           w)
      end
  | Some _ => (action.Return VNil (Some errFirstParamApp), w)
  end.

Definition reserveUserApp_Backward (fuel : nat) (ctx : action.BWContext) (w : World)
  : option World :=
  match action.FWResult ctx with
  | VStringMap m =>
      match GetUserByEmail (default "" (m !! "user")) w with
      | inl user =>
          match ReleaseApp fuel user w with
          | Some (_, w') => Some w'
          | None => None
          end
      | inr _ => Some w
      end
  | _ => None
  end.

Definition reserveUserApp (fuel : nat) : action.Action := {|
  action.Name := "reserve-user-app";
  action.Forward := reserveUserApp_Forward fuel;
  action.Backward := Some (reserveUserApp_Backward fuel);
  action.MinParams := 2;
|}.

(** [insertApp] *)
Definition insertApp_Forward (ctx : action.FWContext) (w : World)
  : action.outcome * World :=
  match action.Params ctx !! 0%nat with
  | None => (action.Panic, w)
  | Some (VApp app) | Some (VAppPtr app) =>
      match db.Conn w with
      | Some err => (action.Return VNil (Some err), w)
      | None =>
          let app := withQuota app quota.Unlimited in
          let app :=
            match config.GetInt "quota:units-per-app" w with
            | Some limit => withQuota app (quota.withLimit (Quota app) limit)
            | None => app
            end in
          let app := withUnits app (Units app ++ [emptyUnit]) in
          match db.AppsInsert app w with
          | (Some (inl _), w') => (action.Return VNil (Some ErrAppAlreadyExists), w')
          | (Some (inr err), w') => (action.Return (VAppPtr app) (Some err), w')
          | (None, w') => (action.Return (VAppPtr app) None, w')
          end
      end
  | Some _ => (action.Return VNil (Some errFirstParamApp), w)
  end.

Definition insertApp_Backward (ctx : action.BWContext) (w : World) : option World :=
  match action.FWResult ctx with
  | VAppPtr app =>
      match db.Conn w with
      | Some _ => Some w
      | None => Some (db.AppsRemove (Name app) w)
      end
  | _ => None
  end.

Definition insertApp : action.Action := {|
  action.Name := "insert-app";
  action.Forward := insertApp_Forward;
  action.Backward := Some insertApp_Backward;
  action.MinParams := 1;
|}.

(** [reserveUnitsToAdd] *)
Definition reserveUnitsToAdd_Forward (fuel : nat) (ctx : action.FWContext)
    (w : World) : action.outcome * World :=
  match action.Params ctx !! 0%nat with
  | None => (action.Panic, w)
  | Some (VApp app) | Some (VAppPtr app) =>
      match action.Params ctx !! 1%nat with
      | None => (action.Panic, w)
      | Some p1 =>
          let with_n (n : Z) : action.outcome * World :=
            match db.Conn w with
            | Some err => (action.Return VNil (Some err), w)
            | None =>
                match App_Get app w with
                | (_, Some _) => (action.Return VNil (Some ErrAppNotFound), w)
                | (app, None) =>
                    match reserveUnits fuel app n w with
                    | None => (action.Diverge, w)
                    | Some (Some err, w') => (action.Return VNil (Some err), w')
                    | Some (None, w') => (action.Return (VInt n) None, w')
                    end
                end
            end in
          match p1 with
          | VInt n => with_n n
          | VUint u => with_n (int_of_uint u)
          | _ =>
              (action.Return VNil
                 (Some (errors_New "Second parameter must be int or uint.")),
               w)
          end
      end
  | Some _ => (action.Return VNil (Some errFirstParamApp), w)
  end.

Definition reserveUnitsToAdd_Backward (fuel : nat) (ctx : action.BWContext)
    (w : World) : option World :=
  match action.BWParams ctx !! 0%nat with
  | None => None
  | Some p0 =>
      let app :=
        match p0 with
        | VApp a | VAppPtr a => a
        | _ => {| Name := ""; Platform := ""; Teams := []; Units := [];
                  Env := ∅; Quota := {| quota.Limit := 0; quota.InUse := 0 |} |}
        end in
      match action.FWResult ctx with
      | VInt qty =>
          match releaseUnits fuel app qty w with
          | Some (_, w') => Some w'
          | None => None
          end
      | _ => None
      end
  end.

Definition reserveUnitsToAdd (fuel : nat) : action.Action := {|
  action.Name := "reserve-units-to-add";
  action.Forward := reserveUnitsToAdd_Forward fuel;
  action.Backward := Some (reserveUnitsToAdd_Backward fuel);
  action.MinParams := 2;
|}.

(** [auth.CreateApplicationToken] and [App.setEnvsToApp] are calls to
    code outside [actions.go]: the world records the call and answers
    with the failure injected for it, if any. *)
Definition CreateApplicationToken (appName : string) (w : World)
  : (auth.Token + error) * World :=
  let w' := emit (EvCreateApplicationToken appName) w in
  match tokenErr w with
  | Some err => (inr err, w')
  | None =>
      (inl {| auth.Token_ := nextToken w; auth.AppName := appName |}, w')
  end.

Definition setEnvsToApp (app : App) (envVars : list bind.EnvVar)
    (publicOnly useQueue : bool) (w : World) : option error * World :=
  (setEnvsErr w, emit (EvSetEnvsToApp (Name app) envVars publicOnly useQueue) w).

(** [strconv.FormatBool] *)
Definition FormatBool (b : bool) : string := if b then "true" else "false".

Section ExportEnvironments.

(** The constant [s3InstanceName] is declared outside [actions.go]. *)
Variable s3InstanceName : string.

(** The order in which [range] visits a map is not specified by Go: it
    is a parameter, of which the proofs only assume that it visits
    every entry once. *)
Variable rangeMap : gmap string string -> list (string * string).

Definition s3Variables (env : s3Env) : gmap string string :=
  list_to_map [
    ("ENDPOINT", endpoint env);
    ("LOCATIONCONSTRAINT", FormatBool (locationConstraint env));
    ("ACCESS_KEY_ID", AccessKey env);
    ("SECRET_KEY", SecretKey env);
    ("BUCKET", bucket env)
  ].

Definition s3EnvVar (entry : string * string) : bind.EnvVar :=
  {| bind.Name := "TSURU_S3_" +:+ entry.1;
     bind.Value := entry.2;
     bind.Public := false;
     bind.InstanceName := s3InstanceName |}.

(** The [envVars] slice the forward builds. *)
Definition exportEnvironments_envVars (app : App) (host token : string)
    (previous : value) : list bind.EnvVar :=
  let envVars := [
    {| bind.Name := "TSURU_APPNAME"; bind.Value := Name app;
       bind.Public := false; bind.InstanceName := "" |};
    {| bind.Name := "TSURU_HOST"; bind.Value := host;
       bind.Public := false; bind.InstanceName := "" |};
    {| bind.Name := "TSURU_APP_TOKEN"; bind.Value := token;
       bind.Public := false; bind.InstanceName := "" |}
  ] in
  match previous with
  | VS3EnvPtr env =>
      fold_left (fun acc entry => acc ++ [s3EnvVar entry])
        (rangeMap (s3Variables env)) envVars
  | _ => envVars
  end.

Definition exportEnvironments_Forward (ctx : action.FWContext) (w : World)
  : action.outcome * World :=
  match action.Params ctx !! 0%nat with
  | Some (VAppPtr app) =>
      match App_Get app w with
      | (_, Some err) => (action.Return VNil (Some err), w)
      | (app, None) =>
          match CreateApplicationToken (Name app) w with
          | (inr err, w1) => (action.Return VNil (Some err), w1)
          | (inl t, w1) =>
              let host := config.GetString "host" w1 in
              let envVars :=
                exportEnvironments_envVars app host (auth.Token_ t)
                  (action.Previous ctx) in
              match setEnvsToApp app envVars false true w1 with
              | (Some err, w2) => (action.Return VNil (Some err), w2)
              | (None, w2) => (action.Return (action.Previous ctx) None, w2)
              end
          end
      end
  | _ => (action.Panic, w)
  end.

(** What a successful forward leaves behind: the token of the app was
    created, then [envVars] were set on the app; the first names are
    the three default ones, in that order, and [s3Names] follow. *)
Definition environmentsExported (ctx : action.FWContext) (w : World)
    (r : value) (w' : World) (s3Names : list string) : Prop :=
  exists app stored envVars,
    action.Params ctx !! 0%nat = Some (VAppPtr app) /\
    apps w !! Name app = Some stored /\
    r = action.Previous ctx /\
    log w' = log w ++ [EvCreateApplicationToken (Name stored);
                       EvSetEnvsToApp (Name stored) envVars false true] /\
    map bind.Name envVars
    = ["TSURU_APPNAME"; "TSURU_HOST"; "TSURU_APP_TOKEN"] ++ s3Names.

End ExportEnvironments.

(** The names under which the S3 credentials are exported. *)
Definition s3EnvNames : list string :=
  ["TSURU_S3_ENDPOINT"; "TSURU_S3_LOCATIONCONSTRAINT";
   "TSURU_S3_ACCESS_KEY_ID"; "TSURU_S3_SECRET_KEY"; "TSURU_S3_BUCKET"].

Definition isS3Env (v : value) : bool :=
  match v with
  | VS3EnvPtr _ => true
  | _ => false
  end.

Section SaveNewUnits.

(** [App.AddUnit], [provision.StatusBuilding.String()] and the queue
    actions [RegenerateApprcAndStart] and [BindService] are declared
    outside [actions.go]. *)
Variable AddUnit : App -> Unit -> App.
Variable StatusBuilding_String : string.
Variables RegenerateApprcAndStart BindService : string.

Definition zeroMessage : queue.Message :=
  {| queue.Action := ""; queue.Args := [] |}.

Definition newUnit (unit : provision.Unit) : Unit :=
  {| UnitName := provision.Name unit;
     UnitType := provision.Type_ unit;
     UnitIp := provision.Ip unit;
     UnitMachine := provision.Machine unit;
     UnitState := StatusBuilding_String;
     UnitInstanceId := provision.InstanceId unit |}.

(** One round of the loop over [prev.units]: the state is [app],
    [messages] and [mCount]. *)
Definition saveUnit (st : App * list queue.Message * nat)
    (unit : provision.Unit) : App * list queue.Message * nat :=
  let '(app, messages, mCount) := st in
  let unit := newUnit unit in
  let app := AddUnit app unit in
  let messages :=
    <[mCount := {| queue.Action := RegenerateApprcAndStart;
                   queue.Args := [Name app; UnitName unit] |}]> messages in
  let messages :=
    <[(mCount + 1)%nat := {| queue.Action := BindService;
                             queue.Args := [Name app; UnitName unit] |}]>
      messages in
  (app, messages, (mCount + 2)%nat).

Definition saveNewUnitsInDatabase_Forward (ctx : action.FWContext)
    (w : World) : action.outcome * World :=
  match action.Params ctx !! 0%nat with
  | None => (action.Panic, w)
  | Some (VApp app) | Some (VAppPtr app) =>
      match action.Previous ctx with
      | VAddUnitsResultPtr units =>
          match db.Conn w with
          | Some err => (action.Return VNil (Some err), w)
          | None =>
              match App_Get app w with
              | (_, Some _) => (action.Return VNil (Some ErrAppNotFound), w)
              | (app, None) =>
                  let '(app, messages, _) :=
                    fold_left saveUnit units
                      (app,
                       replicate (length units * 2) zeroMessage,
                       0%nat) in
                  match db.AppsUpdateUnits (Name app) (Units app) w with
                  | (Some err, w') => (action.Return VNil (Some err), w')
                  | (None, w') =>
                      (action.Return VNil None, emit (EvGoEnqueue messages) w')
                  end
              end
          end
      | _ => (action.Panic, w)
      end
  | Some _ => (action.Return VNil (Some errFirstParamApp), w)
  end.

Definition saveNewUnitsInDatabase : action.Action := {|
  action.Name := "save-new-units-in-database";
  action.Forward := saveNewUnitsInDatabase_Forward;
  action.Backward := None;
  action.MinParams := 1;
|}.

(** The messages of the loop, unit by unit. *)
Fixpoint unitMessages (app : App) (units : list provision.Unit)
  : list queue.Message :=
  match units with
  | [] => []
  | unit :: rest =>
      let app := AddUnit app (newUnit unit) in
      {| queue.Action := RegenerateApprcAndStart;
         queue.Args := [Name app; provision.Name unit] |}
      :: {| queue.Action := BindService;
            queue.Args := [Name app; provision.Name unit] |}
      :: unitMessages app rest
  end.

(** The app after the loop. *)
Definition addUnits (app : App) (units : list provision.Unit) : App :=
  fold_left (fun app unit => AddUnit app (newUnit unit)) units app.

(** What a successful forward leaves behind. *)
Definition unitsSaved (ctx : action.FWContext) (w : World) (r : value)
    (w' : World) : Prop :=
  exists p0 app stored units,
    action.Params ctx !! 0%nat = Some p0 /\ asApp p0 = Some app /\
    action.Previous ctx = VAddUnitsResultPtr units /\
    apps w !! Name app = Some stored /\
    let final := addUnits stored units in
    let messages := unitMessages stored units in
    r = VNil /\
    log w' = log w ++ [EvAppsUpdateUnits (Name final) (Units final) None;
                       EvGoEnqueue messages] /\
    (exists old, apps w !! Name final = Some old
                 /\ apps w' = <[Name final := withUnits old (Units final)]>
                                (apps w)) /\
    length messages = (2 * length units)%nat /\
    map queue.Action messages
    = flat_map (fun _ => [RegenerateApprcAndStart; BindService]) units.

End SaveNewUnits.

(** What a forward that returns [err] leaves behind. *)
Definition nothingEnqueued (err : error) (w : World) (r : value) (w' : World)
  : Prop :=
  r = VNil /\ apps w' = apps w /\
  (log w' = log w
   \/ exists name units,
        log w' = log w ++ [EvAppsUpdateUnits name units (Some err)]).

(** ** Vocabulary of the properties *)

Definition isUser (v : value) : bool :=
  match v with
  | VUser _ | VUserPtr _ => true
  | _ => false
  end.

Definition isIntOrUint (v : value) : bool :=
  match v with
  | VInt _ | VUint _ => true
  | _ => false
  end.

(** How the messages of the source name a position: [Params[0]] is the
    "First parameter", [Params[1]] the "Second parameter", [Params[2]]
    the "Third parameter". *)
Definition ordinal (i : nat) : string :=
  match i with
  | 0%nat => "First"
  | 1%nat => "Second"
  | 2%nat => "Third"
  | _ => ""
  end.

(** A message names position [i] when it starts with the ordinal of [i]
    followed by " parameter". *)
Definition namesPosition (i : nat) (err : error) : bool :=
  String.prefix (ordinal i +:+ " parameter") (Error err).

(** The quota [insertApp] gives to a new app. *)
Definition newAppQuota (w : World) : quota.Quota :=
  match config.GetInt "quota:units-per-app" w with
  | Some limit => {| quota.Limit := limit; quota.InUse := 0 |}
  | None => quota.Unlimited
  end.

(** ** Data of the tests *)

Definition zeroQuota : quota.Quota := {| quota.Limit := 0; quota.InUse := 0 |}.

Definition mkApp (name platform : string) (q : quota.Quota) : App :=
  {| Name := name; Platform := platform; Teams := []; Units := [];
     Env := ∅; Quota := q |}.

Definition mkWorld (storedApps : list App) (storedUsers : list auth.User)
  : World :=
  {| dbConnErr := None;
     apps := list_to_map (map (fun a => (Name a, a)) storedApps);
     users := list_to_map (map (fun u => (auth.Email u, u)) storedUsers);
     configInt := ∅; configString := {["host" := "localhost"]};
     insertErr := None; updateErr := None; tokenErr := None;
     setEnvsErr := None; nextToken := "0123abcd"; log := [] |}.

Definition withConfigInt (w : World) (key : string) (n : Z) : World :=
  {| dbConnErr := dbConnErr w; apps := apps w; users := users w;
     configInt := <[key := n]> (configInt w); configString := configString w;
     insertErr := insertErr w; updateErr := updateErr w;
     tokenErr := tokenErr w; setEnvsErr := setEnvsErr w;
     nextToken := nextToken w; log := log w |}.

Definition withUpdateErr (w : World) (err : error) : World :=
  {| dbConnErr := dbConnErr w; apps := apps w; users := users w;
     configInt := configInt w; configString := configString w;
     insertErr := insertErr w; updateErr := Some err;
     tokenErr := tokenErr w; setEnvsErr := setEnvsErr w;
     nextToken := nextToken w; log := log w |}.

(** ** The callers of [TestReserveUnitsIsAtomic]

    An app with limit 40 and nothing in use, and twenty callers of
    [reserveUnits(&app, 3)] whose accesses to the store interleave in any
    order. *)

Definition together : App :=
  mkApp "together" "" {| quota.Limit := 40; quota.InUse := 0 |}.

Definition atomicInit : @ledger.system App :=
  {| ledger.store := {["together" := together]};
     ledger.callers := replicate 20 ledger.Start |}.

Definition atomicStep : relation (@ledger.system App) :=
  ledger.sys_step ErrAppNotFound ledger.Reserve "together" 3.

(** The schedule that lets each caller run to its end before the next
    one starts. *)
Definition oneAfterAnother : list nat :=
  flat_map (fun i => [i; i]) (seq 0 20).

Definition atomicFinal : @ledger.system App :=
  ledger.schedule ErrAppNotFound ledger.Reserve "together" 3 atomicInit
    oneAfterAnother.

Fixpoint sumZ (f : ledger.pc -> Z) (l : list ledger.pc) : Z :=
  match l with
  | [] => 0
  | p :: l' => f p + sumZ f l'
  end.

(** The number of callers that satisfy [f]. *)
Definition count (f : ledger.pc -> bool) (l : list ledger.pc) : Z :=
  sumZ (fun p => if f p then 1 else 0) l.

Definition exceeded (requested available : Z) (p : ledger.pc) : bool :=
  match p with
  | ledger.Finished (Some (QuotaExceededError r a)) =>
      (r =? requested) && (a =? available)
  | _ => false
  end.

(** The units in use that the store holds for the app. *)
Definition inUseNow (sys : @ledger.system App) : Z :=
  default 0 (ledger.inUseOf "together" (ledger.store sys)).

(** The accesses a caller still has to make at most before it returns or
    before some caller reserves: a caller that holds an out-of-date
    snapshot fails its conditional update, reads again and decides. *)
Definition weight (u : Z) (p : ledger.pc) : Z :=
  match p with
  | ledger.Start => 2
  | ledger.Read q => if decide (quota.InUse q = u) then 1 else 3
  | ledger.Finished _ => 0
  end.

(** A bound on the accesses left in a run: each of the units still free
    pays for the snapshots a reservation makes out of date. *)
Definition measure (sys : @ledger.system App) : Z :=
  sumZ (weight (inUseNow sys)) (ledger.callers sys)
  + 13 * (40 - inUseNow sys).

(** What holds of a caller when the store has [u] units in use. *)
Definition callerOk (u : Z) (p : ledger.pc) : Prop :=
  match p with
  | ledger.Start => True
  | ledger.Read q =>
      quota.Limit q = 40 /\ 0 <= quota.InUse q <= u
      /\ exists k, quota.InUse q = 3 * k
  | ledger.Finished None => True
  | ledger.Finished (Some err) => err = QuotaExceededError 3 1 /\ u = 39
  end.

(** The invariant of the runs of the twenty callers. *)
Definition atomicInv (sys : @ledger.system App) : Prop :=
  (exists a, ledger.store sys !! "together" = Some a
             /\ quota.Limit (Quota a) = 40)
  /\ inUseNow sys = 3 * count ledger.succeeded (ledger.callers sys)
  /\ inUseNow sys <= 40
  /\ length (ledger.callers sys) = 20%nat
  /\ Forall (callerOk (inUseNow sys)) (ledger.callers sys).

(** ** An app-creation pipeline that fails at its third action

    The user of [TestReserveUserAppForward] creates the app "clap"; the
    pipeline reserves the app for the user, inserts the record and then
    tries to insert it a second time. *)

Definition clapUser : auth.User :=
  {| auth.Email := "clap@yes.com";
     auth.Quota := {| quota.Limit := 1; quota.InUse := 0 |} |}.

Definition clapApp : App := mkApp "clap" "django" zeroQuota.

Definition clapWorld : World := mkWorld [] [clapUser].

Definition clapParams : list value := [VApp clapApp; VUser clapUser].

(** ** The scaling of [TestSaveNewUnitsInDatabaseForward]

    Three units were added to the app "visions" by the provisioner. *)

(** An [AddUnit] that appends the unit to the units of the app. *)
Definition appendUnit (a : App) (u : Unit) : App :=
  withUnits a (Units a ++ [u]).

Definition visions : App := mkApp "visions" "django" zeroQuota.

Definition visionsUnit (n : string) : provision.Unit :=
  {| provision.Name := "visions/" +:+ n; provision.Type_ := "django";
     provision.InstanceId := "i-0" +:+ n; provision.Machine := 1;
     provision.Ip := "10.10.10." +:+ n |}.

Definition visionsWorld : World := mkWorld [visions] [].

Definition visionsCtx : action.FWContext :=
  {| action.Previous :=
       VAddUnitsResultPtr [visionsUnit "1"; visionsUnit "2"; visionsUnit "3"];
     action.Params := [VAppPtr visions] |}.

(** ** The export of [TestExportEnvironmentsForward] *)

Definition mist : App := mkApp "mist" "opeth" zeroQuota.

Definition mistEnv : s3Env :=
  {| AccessKey := "access"; SecretKey := "s3cr3t";
     endpoint := "http://localhost:4567"; locationConstraint := true;
     bucket := "mist-bucket" |}.

Definition mistCtx : action.FWContext :=
  {| action.Previous := VS3EnvPtr mistEnv; action.Params := [VAppPtr mist] |}.

Definition mistWorld : World := mkWorld [mist] [].

(** ** The actions that talk to the provisioner and to the repository
    server

    The provisioner ([Provisioner], a package-level interface value), the
    Gandalf client, [App.GetTeams] and [incrementDeploy] are declared
    outside [actions.go]: they are parameters, each a function of the
    world. *)

(** [uint(n)] for an [int] on a 64-bit platform. *)
Definition uint_of_int (n : Z) : Z :=
  if n <? 0 then n + 2 ^ 64 else n.

(** [App{}], the zero value. *)
Definition zeroApp : App :=
  {| Name := ""; Platform := ""; Teams := []; Units := []; Env := ∅;
     Quota := {| quota.Limit := 0; quota.InUse := 0 |} |}.

Section Collaborators.

Variable Provision : App -> World -> option error * World.
Variable Destroy : App -> World -> World.
Variable AddUnits : App -> Z -> World -> (list provision.Unit + error) * World.
Variable RemoveUnit : App -> string -> World -> World.
Variable Deploy : App -> string -> string -> World -> option error * World.
Variable incrementDeploy : App -> World -> option error * World.
(** [App.GetTeams]: the [Users] of each team of the app. *)
Variable GetTeams : App -> World -> list (list string).
Variable NewRepository :
  string -> list string -> bool -> World -> option error * World.
Variable RemoveRepository : string -> World -> World.

(** [createRepository] *)
Definition createRepository_Forward (ctx : action.FWContext) (w : World)
  : action.outcome * World :=
  match action.Params ctx !! 0%nat with
  | None => (action.Panic, w)
  | Some (VApp app) | Some (VAppPtr app) =>
      let users :=
        fold_left (fun users t => users ++ t) (GetTeams app w) [] in
      let '(err, w') := NewRepository (Name app) users false w in
      (action.Return (VAppPtr app) err, w')
  | Some _ => (action.Return VNil (Some errFirstParamApp), w)
  end.

Definition createRepository_Backward (ctx : action.BWContext) (w : World)
  : option World :=
  match action.FWResult ctx with
  | VAppPtr app =>
      let '(app, _) := App_Get app w in
      Some (RemoveRepository (Name app) w)
  | _ => None
  end.

Definition createRepository : action.Action := {|
  action.Name := "create-repository";
  action.Forward := createRepository_Forward;
  action.Backward := Some createRepository_Backward;
  action.MinParams := 1;
|}.

(** [provisionApp] *)
Definition provisionApp_Forward (ctx : action.FWContext) (w : World)
  : action.outcome * World :=
  match action.Params ctx !! 0%nat with
  | None => (action.Panic, w)
  | Some (VApp app) | Some (VAppPtr app) =>
      match Provision app w with
      | (Some err, w') => (action.Return VNil (Some err), w')
      | (None, w') => (action.Return (VAppPtr app) None, w')
      end
  | Some _ => (action.Return VNil (Some errFirstParamApp), w)
  end.

Definition provisionApp_Backward (ctx : action.BWContext) (w : World)
  : option World :=
  match action.FWResult ctx with
  | VAppPtr app => Some (Destroy app w)
  | _ => None
  end.

Definition provisionApp : action.Action := {|
  action.Name := "provision-app";
  action.Forward := provisionApp_Forward;
  action.Backward := Some provisionApp_Backward;
  action.MinParams := 1;
|}.

(** [provisionAddUnits] *)
Definition provisionAddUnits_Forward (ctx : action.FWContext) (w : World)
  : action.outcome * World :=
  match action.Params ctx !! 0%nat with
  | None => (action.Panic, w)
  | Some (VApp app) | Some (VAppPtr app) =>
      match action.Previous ctx with
      | VInt n =>
          match AddUnits app (uint_of_int n) w with
          | (inr err, w') => (action.Return VNil (Some err), w')
          | (inl units, w') =>
              (action.Return (VAddUnitsResultPtr units) None, w')
          end
      | _ => (action.Panic, w)
      end
  | Some _ => (action.Return VNil (Some errFirstParamApp), w)
  end.

Definition provisionAddUnits_Backward (ctx : action.BWContext) (w : World)
  : option World :=
  match action.BWParams ctx !! 0%nat with
  | None => None
  | Some p0 =>
      let app :=
        match p0 with
        | VApp a | VAppPtr a => a
        | _ => zeroApp
        end in
      match action.FWResult ctx with
      | VAddUnitsResultPtr units =>
          Some (fold_left
                  (fun w unit => RemoveUnit app (provision.Name unit) w)
                  units w)
      | _ => None
      end
  end.

Definition provisionAddUnits : action.Action := {|
  action.Name := "provision-add-units";
  action.Forward := provisionAddUnits_Forward;
  action.Backward := Some provisionAddUnits_Backward;
  action.MinParams := 1;
|}.

(** [ProvisionerDeploy] *)
Definition ProvisionerDeploy_Forward (ctx : action.FWContext) (w : World)
  : action.outcome * World :=
  match action.Params ctx !! 0%nat with
  | None => (action.Panic, w)
  | Some (VAppPtr app) =>
      match action.Params ctx !! 1%nat with
      | None => (action.Panic, w)
      | Some (VString version) =>
          match action.Params ctx !! 2%nat with
          | None => (action.Panic, w)
          | Some (VWriter logWriter) =>
              let '(err, w') := Deploy app version logWriter w in
              (action.Return VNil err, w')
          | Some _ =>
              (action.Return VNil
                 (Some (errors_New "Third parameter must be a io.Writer.")),
               w)
          end
      | Some _ =>
          (action.Return VNil
             (Some (errors_New "Second parameter must be a string.")),
           w)
      end
  | Some _ =>
      (action.Return VNil
         (Some (errors_New "First parameter must be a *App.")),
       w)
  end.

Definition ProvisionerDeploy : action.Action := {|
  action.Name := "provisioner-deploy";
  action.Forward := ProvisionerDeploy_Forward;
  action.Backward := Some (fun _ w => Some w);
  action.MinParams := 3;
|}.

(** [IncrementDeploy] *)
Definition IncrementDeploy_Forward (ctx : action.FWContext) (w : World)
  : action.outcome * World :=
  match action.Params ctx !! 0%nat with
  | None => (action.Panic, w)
  | Some (VAppPtr app) =>
      let '(err, w') := incrementDeploy app w in
      (action.Return VNil err, w')
  | Some _ =>
      (action.Return VNil
         (Some (errors_New "First parameter must be a *App.")),
       w)
  end.

Definition IncrementDeploy : action.Action := {|
  action.Name := "increment-deploy";
  action.Forward := IncrementDeploy_Forward;
  action.Backward := Some (fun _ w => Some w);
  action.MinParams := 1;
|}.

End Collaborators.

(** The dynamic type [ProvisionerDeploy] expects at each position. *)
Definition deployTypeOk (i : nat) (v : value) : bool :=
  match i, v with
  | 0%nat, VAppPtr _ => true
  | 1%nat, VString _ => true
  | 2%nat, VWriter _ => true
  | _, _ => false
  end.

(** The collections are keyed by the field the records are looked up
    with: an app is stored under its name, a user under its e-mail. *)
Definition keyedByName (m : gmap string App) : Prop :=
  forall k a, m !! k = Some a -> Name a = k.

Definition keyedByEmail (m : gmap string auth.User) : Prop :=
  forall k u, m !! k = Some u -> auth.Email u = k.

Definition withInsertErr (w : World) (err : error) : World :=
  {| dbConnErr := dbConnErr w; apps := apps w; users := users w;
     configInt := configInt w; configString := configString w;
     insertErr := Some err; updateErr := updateErr w;
     tokenErr := tokenErr w; setEnvsErr := setEnvsErr w;
     nextToken := nextToken w; log := log w |}.

Definition conviction : App := mkApp "conviction" "evergrey" zeroQuota.

Definition convictionCtx : action.FWContext :=
  {| action.Previous := VNil; action.Params := [VApp conviction] |}.

(** The user that [reserveUserApp] reads from its second parameter. *)
Definition asUser (v : value) : option auth.User :=
  match v with
  | VUser u | VUserPtr u => Some u
  | _ => None
  end.

(** The [int] that [reserveUnitsToAdd] reads from its second parameter. *)
Definition asInt (v : value) : option Z :=
  match v with
  | VInt n => Some n
  | VUint u => Some (int_of_uint u)
  | _ => None
  end.

(** The units in use are never negative. *)
Definition inUseNonNegative {A : Type} `{Owner A} (m : gmap string A) : Prop :=
  forall k a, m !! k = Some a -> 0 <= quota.InUse (quotaOf a).

(** The app of [TestReserveUnitsToAddForwardQuotaExceeded] and of
    [TestReserveUnitsToAddBackward]. *)
Definition visionsFull : App :=
  mkApp "visions" "django" {| quota.Limit := 1; quota.InUse := 1 |}.

Definition visionsRoom : App :=
  mkApp "visions" "django" {| quota.Limit := 5; quota.InUse := 1 |}.

(** A variable that is not public. *)
Definition privateVar (name value instanceName : string) : bind.EnvVar :=
  {| bind.Name := name; bind.Value := value; bind.Public := false;
     bind.InstanceName := instanceName |}.

Definition withTokenErr (w : World) (err : error) : World :=
  {| dbConnErr := dbConnErr w; apps := apps w; users := users w;
     configInt := configInt w; configString := configString w;
     insertErr := insertErr w; updateErr := updateErr w;
     tokenErr := Some err; setEnvsErr := setEnvsErr w;
     nextToken := nextToken w; log := log w |}.


(** ** Any number of callers of one operation

    What is left for the callers of an operation: the units still free
    for a reservation, the units in use for a release. *)
Definition roomFor (o : ledger.op) (q : quota.Quota) : Z :=
  match o with
  | ledger.Reserve => quota.Limit q - quota.InUse q
  | ledger.Release => quota.InUse q
  end.

(** The units in use after the operation went through. *)
Definition inUseAfter (o : ledger.op) (inUse amount : Z) : Z :=
  match o with
  | ledger.Reserve => inUse + amount
  | ledger.Release => inUse - amount
  end.

(** The error of a caller that is refused. *)
Definition refusal (o : ledger.op) (amount room : Z) : error :=
  match o with
  | ledger.Reserve => QuotaExceededError amount room
  | ledger.Release => ledger.ErrInsufficientReservation
  end.

Definition uniformInit (s0 : gmap string App) (n : nat)
  : @ledger.system App :=
  {| ledger.store := s0; ledger.callers := replicate n ledger.Start |}.

(** What holds of a caller when [room] is left in the store, for callers
    that started with [room0] left under the limit [limit]. *)
Definition uniformOk (o : ledger.op) (amount limit room0 room : Z)
    (p : ledger.pc) : Prop :=
  match p with
  | ledger.Start => True
  | ledger.Read q =>
      quota.Limit q = limit /\ room <= roomFor o q
      /\ exists k, roomFor o q = room0 - amount * k
  | ledger.Finished None => True
  | ledger.Finished (Some err) =>
      err = refusal o amount (room0 mod amount) /\ room < amount
  end.

Definition uniformInv (o : ledger.op) (name : string) (amount : Z)
    (a0 : App) (n : nat) (sys : @ledger.system App) : Prop :=
  exists a,
    ledger.store sys !! name = Some a
    /\ quota.Limit (Quota a) = quota.Limit (Quota a0)
    /\ roomFor o (Quota a)
       = roomFor o (Quota a0)
         - amount * count ledger.succeeded (ledger.callers sys)
    /\ 0 <= roomFor o (Quota a)
    /\ length (ledger.callers sys) = n
    /\ Forall (uniformOk o amount (quota.Limit (Quota a0))
                 (roomFor o (Quota a0)) (roomFor o (Quota a)))
         (ledger.callers sys).

(** The callers of [TestReleaseUnitsIsAtomic]: 40 units in use, twenty
    callers of [releaseUnits(&app, 3)]. *)
Definition togetherFull : App :=
  mkApp "together" "" {| quota.Limit := 40; quota.InUse := 40 |}.

Definition releaseFinal : @ledger.system App :=
  ledger.schedule ErrAppNotFound ledger.Release "together" 3
    (uniformInit {["together" := togetherFull]} 20) oneAfterAnother.

(** ** Callers of both operations

    Each caller has its own operation and amount; their accesses to the
    store interleave in any order. *)

Record caller : Type := {
  callerOp : ledger.op;
  callerAmount : Z;
  callerAt : ledger.pc;
}.

Definition moveTo (c : caller) (p : ledger.pc) : caller :=
  {| callerOp := callerOp c; callerAmount := callerAmount c; callerAt := p |}.

Record mixedSystem : Type := {
  mixedStore : gmap string App;
  mixedCallers : list caller;
}.

Inductive mixed_step (name : string) : mixedSystem -> mixedSystem -> Prop :=
  | mixed_step_caller i c acc p' s' sys :
      mixedCallers sys !! i = Some c ->
      ledger.step ErrAppNotFound (callerOp c) name (callerAmount c)
        (callerAt c) (mixedStore sys) = Some (acc, p', s') ->
      mixed_step name sys
        {| mixedStore := s';
           mixedCallers := <[i := moveTo c p']> (mixedCallers sys) |}.

Definition mixedInit (s0 : gmap string App)
    (requests : list (ledger.op * Z)) : mixedSystem :=
  {| mixedStore := s0;
     mixedCallers :=
       map (fun r : ledger.op * Z =>
              {| callerOp := r.1; callerAmount := r.2;
                 callerAt := ledger.Start |})
         requests |}.

(** The same step as a function of the scheduler's choice. *)
Definition mixed_schedule_one (name : string) (sys : mixedSystem) (i : nat)
  : mixedSystem :=
  match mixedCallers sys !! i with
  | Some c =>
      match ledger.step ErrAppNotFound (callerOp c) name (callerAmount c)
              (callerAt c) (mixedStore sys) with
      | Some (_, p', s') =>
          {| mixedStore := s';
             mixedCallers := <[i := moveTo c p']> (mixedCallers sys) |}
      | None => sys
      end
  | None => sys
  end.

Definition mixed_schedule (name : string) (sys : mixedSystem)
    (sched : list nat) : mixedSystem :=
  fold_left (mixed_schedule_one name) sched sys.

Fixpoint sumOf {A : Type} (f : A -> Z) (l : list A) : Z :=
  match l with
  | [] => 0
  | x :: l' => f x + sumOf f l'
  end.

(** What a caller has added to the units in use: its amount once its
    reservation succeeded, minus its amount once its release did. *)
Definition gain (c : caller) : Z :=
  if ledger.succeeded (callerAt c)
  then inUseAfter (callerOp c) 0 (callerAmount c)
  else 0.

Definition unfinished (c : caller) : Z :=
  if ledger.finished (callerAt c) then 0 else 1.

Definition mixedInUse (name : string) (sys : mixedSystem) : Z :=
  default 0 (ledger.inUseOf name (mixedStore sys)).

(** A bound on the accesses left in a run: what each caller needs when
    it is left alone, and for each caller that has not returned the
    snapshots it can make out of date by succeeding. *)
Definition mixedMeasure (name : string) (sys : mixedSystem) : Z :=
  sumOf (fun c => weight (mixedInUse name sys) (callerAt c))
    (mixedCallers sys)
  + 2 * Z.of_nat (length (mixedCallers sys))
    * sumOf unfinished (mixedCallers sys).

(** A caller that returned an error was refused for its own amount. *)
Definition refusedForItsAmount (c : caller) : Prop :=
  forall err,
    callerAt c = ledger.Finished (Some err) ->
    exists room,
      room < callerAmount c
      /\ err = refusal (callerOp c) (callerAmount c) room.

Definition mixedOk (limit : Z) (c : caller) : Prop :=
  0 <= callerAmount c
  /\ refusedForItsAmount c
  /\ forall q, callerAt c = ledger.Read q -> quota.Limit q = limit.

Definition mixedInv (name : string) (a0 : App) (sys : mixedSystem) : Prop :=
  exists a,
    mixedStore sys !! name = Some a
    /\ quota.Limit (Quota a) = quota.Limit (Quota a0)
    /\ quota.InUse (Quota a)
       = quota.InUse (Quota a0) + sumOf gain (mixedCallers sys)
    /\ 0 <= quota.InUse (Quota a) <= quota.Limit (Quota a)
    /\ Forall (mixedOk (quota.Limit (Quota a0))) (mixedCallers sys).

(** An app with 2 of 7 units in use, and three callers. *)
Definition sevenApp : App :=
  mkApp "together" "" {| quota.Limit := 7; quota.InUse := 2 |}.

Definition sevenRequests : list (ledger.op * Z) :=
  [(ledger.Reserve, 3); (ledger.Release, 2); (ledger.Reserve, 5)].

Definition sevenFinal : mixedSystem :=
  mixed_schedule "together"
    (mixedInit {["together" := sevenApp]} sevenRequests)
    [0; 1; 2; 0; 1; 2; 1; 2; 2; 1]%nat.

(** * Properties *)

(** ** Type checks of the parameters *)

Lemma asApp_Some v a : asApp v = Some a -> v = VApp a \/ v = VAppPtr a.
Proof. destruct v; simpl; intros [= ->]; auto. Qed.

(** The sibling of [reserveUserApp] that reads [Params[1]] names it as
    the second parameter. *)
Lemma reserveUnitsToAdd_invalid_number fuel p0 app p1 rest prev w :
  asApp p0 = Some app ->
  isIntOrUint p1 = false ->
  exists err,
    reserveUnitsToAdd_Forward fuel
      {| action.Previous := prev; action.Params := p0 :: p1 :: rest |} w
    = (action.Return VNil (Some err), w)
    /\ Error err = "Second parameter must be int or uint."
    /\ namesPosition 1 err = true.
Proof.
  intros Happ Hnum.
  exists (errors_New "Second parameter must be int or uint.").
  split; [|split].
  - apply asApp_Some in Happ as [-> | ->];
      destruct p1; simpl in Hnum; try discriminate; reflexivity.
  - reflexivity.
  - reflexivity.
Qed.

(** C3, at the input of [TestReserveUserAppForwardInvalidUser] and at
    every other second parameter that is neither an [auth.User] nor a
    [*auth.User]: [reserveUserApp.Forward] returns a nil result and an
    error, but the message of the error names the third position, not the
    second one where the offending parameter stands. *)
Theorem reserveUserApp_invalid_user_names_third fuel p0 app p1 rest prev w :
  asApp p0 = Some app ->
  isUser p1 = false ->
  exists err,
    reserveUserApp_Forward fuel
      {| action.Previous := prev; action.Params := p0 :: p1 :: rest |} w
    = (action.Return VNil (Some err), w)
    /\ Error err = "Third parameter must be auth.User or *auth.User."
    /\ namesPosition 1 err = false
    /\ namesPosition 2 err = true.
Proof.
  intros Happ Huser.
  exists (errors_New "Third parameter must be auth.User or *auth.User.").
  split; [|repeat split].
  apply asApp_Some in Happ as [-> | ->];
    destruct p1; simpl in Huser; try discriminate; reflexivity.
Qed.

Lemma reserveUserApp_invalid_user_names_third_witness :
  exists err,
    reserveUserApp_Forward 0
      {| action.Previous := VNil;
         action.Params := [VApp (mkApp "clap" "django" zeroQuota);
                           VString "something"] |} (mkWorld [] [])
    = (action.Return VNil (Some err), mkWorld [] [])
    /\ Error err = "Third parameter must be auth.User or *auth.User."
    /\ namesPosition 1 err = false
    /\ namesPosition 2 err = true.
Proof.
  apply (reserveUserApp_invalid_user_names_third 0
           (VApp (mkApp "clap" "django" zeroQuota))
           (mkApp "clap" "django" zeroQuota) (VString "something") []
           VNil (mkWorld [] [])); reflexivity.
Defined.

(** ** [insertApp] *)

(** C4: when the name of the app is already taken in the database,
    [insertApp.Forward] returns a nil result and [ErrAppAlreadyExists],
    and leaves the world as it found it: no record is created. *)
Theorem insertApp_duplicate p0 app rest prev w stored :
  asApp p0 = Some app ->
  db.Conn w = None ->
  apps w !! Name app = Some stored ->
  insertApp_Forward
    {| action.Previous := prev; action.Params := p0 :: rest |} w
  = (action.Return VNil (Some ErrAppAlreadyExists), w).
Proof.
  intros Happ Hconn Hdup.
  apply asApp_Some in Happ as [-> | ->]; cbn -[config.GetInt];
    rewrite Hconn; unfold db.AppsInsert;
    destruct (config.GetInt _ w); cbn; rewrite Hdup; reflexivity.
Qed.

Lemma insertApp_duplicate_witness :
  let app := mkApp "come" "gotthard" zeroQuota in
  insertApp_Forward
    {| action.Previous := VNil; action.Params := [VAppPtr app] |}
    (mkWorld [app] [])
  = (action.Return VNil (Some ErrAppAlreadyExists), mkWorld [app] []).
Proof.
  intros app.
  apply (insertApp_duplicate (VAppPtr app) app [] VNil (mkWorld [app] []) app);
    reflexivity.
Defined.

(** C10: when [insertApp.Forward] accepts an app, the record it inserts
    carries the unlimited quota, or the limit configured under
    [quota:units-per-app] with nothing in use, and the units of the input
    followed by one empty unit; that record is the one stored under the
    name of the app and the one returned. *)
Theorem insertApp_inserted_record ctx w r w' :
  insertApp_Forward ctx w = (action.Return r None, w') ->
  exists p0 app,
    action.Params ctx !! 0%nat = Some p0 /\ asApp p0 = Some app /\
    let inserted :=
      {| Name := Name app; Platform := Platform app; Teams := Teams app;
         Units := Units app ++ [emptyUnit]; Env := Env app;
         Quota := newAppQuota w |} in
    r = VAppPtr inserted /\
    apps w !! Name app = None /\
    apps w' = <[Name app := inserted]> (apps w) /\
    apps w' !! Name app = Some inserted /\
    length (Units inserted) = S (length (Units app)) /\
    (config.GetInt "quota:units-per-app" w = None ->
       Quota inserted = quota.Unlimited) /\
    (forall limit, config.GetInt "quota:units-per-app" w = Some limit ->
       quota.Limit (Quota inserted) = limit).
Proof.
  unfold insertApp_Forward, newAppQuota. intros Hfw.
  destruct (action.Params ctx !! 0%nat) as [p0|] eqn:Hp0; [|discriminate].
  assert (exists app, asApp p0 = Some app) as [app Happ].
  { destruct p0; try discriminate; eexists; reflexivity. }
  exists p0, app. split; [reflexivity|]. split; [exact Happ|].
  assert (Hsame :
    match db.Conn w with
    | Some err => (action.Return VNil (Some err), w)
    | None =>
        let app1 := withQuota app quota.Unlimited in
        let app2 :=
          match config.GetInt "quota:units-per-app" w with
          | Some limit => withQuota app1 (quota.withLimit (Quota app1) limit)
          | None => app1
          end in
        let app3 := withUnits app2 (Units app2 ++ [emptyUnit]) in
        match db.AppsInsert app3 w with
        | (Some (inl _), w1) =>
            (action.Return VNil (Some ErrAppAlreadyExists), w1)
        | (Some (inr err), w1) => (action.Return (VAppPtr app3) (Some err), w1)
        | (None, w1) => (action.Return (VAppPtr app3) None, w1)
        end
    end = (action.Return r None, w')).
  { apply asApp_Some in Happ as [-> | ->]; exact Hfw. }
  clear Hfw. destruct (db.Conn w); [discriminate|].
  cbv zeta in Hsame. unfold db.AppsInsert in Hsame.
  destruct (config.GetInt "quota:units-per-app" w) as [limit|] eqn:Hcfg;
    cbn in Hsame;
    destruct (apps w !! Name app) eqn:Hfree; try discriminate;
    destruct (insertErr w); try discriminate;
    injection Hsame as <- <-; cbn;
    repeat split; try reflexivity; try discriminate;
    first [ apply lookup_insert_eq
          | rewrite length_app; simpl; lia
          | intros ? [= <-]; reflexivity ].
Qed.

Lemma insertApp_inserted_record_witness :
  let app := mkApp "come" "beatles" zeroQuota in
  let ctx := {| action.Previous := VNil; action.Params := [VApp app] |} in
  let w := withConfigInt (mkWorld [] []) "quota:units-per-app" 2 in
  let w' := (insertApp_Forward ctx w).2 in
  let r := VAppPtr (withUnits (withQuota app {| quota.Limit := 2;
                                                quota.InUse := 0 |})
                      [emptyUnit]) in
  exists p0 app,
    action.Params ctx !! 0%nat = Some p0 /\ asApp p0 = Some app /\
    let inserted :=
      {| Name := Name app; Platform := Platform app; Teams := Teams app;
         Units := Units app ++ [emptyUnit]; Env := Env app;
         Quota := newAppQuota w |} in
    r = VAppPtr inserted /\
    apps w !! Name app = None /\
    apps w' = <[Name app := inserted]> (apps w) /\
    apps w' !! Name app = Some inserted /\
    length (Units inserted) = S (length (Units app)) /\
    (config.GetInt "quota:units-per-app" w = None ->
       Quota inserted = quota.Unlimited) /\
    (forall limit, config.GetInt "quota:units-per-app" w = Some limit ->
       quota.Limit (Quota inserted) = limit).
Proof.
  intros app ctx w w' r.
  apply (insertApp_inserted_record ctx w r w').
  reflexivity.
Defined.

(** ** [reserveUnitsToAdd] *)

(** C7: when the record of the app is absent from the database,
    [reserveUnitsToAdd.Forward], once its two type checks have passed,
    returns a nil result and [ErrAppNotFound], whose message is
    "App not found", and leaves the world as it found it: nothing is
    reserved. *)
Theorem reserveUnitsToAdd_app_not_found fuel p0 app p1 rest prev w :
  asApp p0 = Some app ->
  isIntOrUint p1 = true ->
  db.Conn w = None ->
  apps w !! Name app = None ->
  reserveUnitsToAdd_Forward fuel
    {| action.Previous := prev; action.Params := p0 :: p1 :: rest |} w
  = (action.Return VNil (Some ErrAppNotFound), w)
  /\ Error ErrAppNotFound = "App not found".
Proof.
  intros Happ Hnum Hconn Habsent. split; [|reflexivity].
  apply asApp_Some in Happ as [-> | ->];
    destruct p1; simpl in Hnum; try discriminate;
    cbn; unfold App_Get, db.AppsFind; rewrite Hconn, Habsent; reflexivity.
Qed.

Lemma reserveUnitsToAdd_app_not_found_witness :
  let app := mkApp "something" "" zeroQuota in
  reserveUnitsToAdd_Forward 2
    {| action.Previous := VNil; action.Params := [VAppPtr app; VInt 3] |}
    (mkWorld [] [])
  = (action.Return VNil (Some ErrAppNotFound), mkWorld [] [])
  /\ Error ErrAppNotFound = "App not found".
Proof.
  intros app.
  apply (reserveUnitsToAdd_app_not_found 2 (VAppPtr app) app (VInt 3) []
           VNil (mkWorld [] [])); reflexivity.
Defined.

(** ** The ledger, one caller alone *)

Section LedgerAlone.
Context {A : Type} {OA : Owner A}.
Variables (notFound : error) (name : string).

Lemma conditionalUpdate_fresh (s : gmap string A) a new :
  s !! name = Some a ->
  ledger.conditionalUpdate name (quota.InUse (quotaOf a)) new s
  = Some (<[name := ledger.setInUse a new]> s).
Proof.
  intros Hs. unfold ledger.conditionalUpdate. rewrite Hs.
  case_decide; [reflexivity | contradiction].
Qed.

Lemma run_not_found fuel o amount (s : gmap string A) :
  s !! name = None ->
  ledger.run (S fuel) notFound o name amount ledger.Start s
  = Some (Some notFound, s, [ledger.Find]).
Proof. intros Hs. simpl. rewrite Hs. destruct fuel; reflexivity. Qed.

Lemma run_reserve_unlimited fuel amount (s : gmap string A) a :
  s !! name = Some a ->
  quota.IsUnlimited (quotaOf a) = true ->
  ledger.run (S (S fuel)) notFound ledger.Reserve name amount ledger.Start s
  = Some (None,
          <[name := ledger.setInUse a (quota.InUse (quotaOf a) + amount)]> s,
          [ledger.Find; ledger.Increment]).
Proof.
  intros Hs Hunl. simpl. rewrite Hs. simpl. rewrite Hunl.
  unfold ledger.increment. rewrite Hs. destruct fuel; reflexivity.
Qed.

Lemma run_reserve_exceeded fuel amount (s : gmap string A) a :
  s !! name = Some a ->
  quota.IsUnlimited (quotaOf a) = false ->
  quota.Limit (quotaOf a) - quota.InUse (quotaOf a) < amount ->
  ledger.run (S (S fuel)) notFound ledger.Reserve name amount ledger.Start s
  = Some (Some (QuotaExceededError amount
                  (quota.Limit (quotaOf a) - quota.InUse (quotaOf a))),
          s, [ledger.Find; ledger.Rejected]).
Proof.
  intros Hs Hunl Hlt. simpl. rewrite Hs. simpl. rewrite Hunl.
  destruct (Z.gtb_spec amount
              (quota.Limit (quotaOf a) - quota.InUse (quotaOf a))); [|lia].
  destruct fuel; reflexivity.
Qed.

Lemma run_reserve_ok fuel amount (s : gmap string A) a :
  s !! name = Some a ->
  quota.IsUnlimited (quotaOf a) = false ->
  amount <= quota.Limit (quotaOf a) - quota.InUse (quotaOf a) ->
  ledger.run (S (S fuel)) notFound ledger.Reserve name amount ledger.Start s
  = Some (None,
          <[name := ledger.setInUse a (quota.InUse (quotaOf a) + amount)]> s,
          [ledger.Find; ledger.ConditionalUpdate true]).
Proof.
  intros Hs Hunl Hle. simpl. rewrite Hs. simpl. rewrite Hunl.
  destruct (Z.gtb_spec amount
              (quota.Limit (quotaOf a) - quota.InUse (quotaOf a))); [lia|].
  unfold ledger.commit. rewrite (conditionalUpdate_fresh s a _ Hs).
  destruct fuel; reflexivity.
Qed.

Lemma run_release_insufficient fuel amount (s : gmap string A) a :
  s !! name = Some a ->
  quota.InUse (quotaOf a) < amount ->
  ledger.run (S (S fuel)) notFound ledger.Release name amount ledger.Start s
  = Some (Some ledger.ErrInsufficientReservation, s,
          [ledger.Find; ledger.Rejected]).
Proof.
  intros Hs Hlt. simpl. rewrite Hs. simpl.
  destruct (Z.gtb_spec amount (quota.InUse (quotaOf a))); [|lia].
  destruct fuel; reflexivity.
Qed.

Lemma run_release_ok fuel amount (s : gmap string A) a :
  s !! name = Some a ->
  amount <= quota.InUse (quotaOf a) ->
  ledger.run (S (S fuel)) notFound ledger.Release name amount ledger.Start s
  = Some (None,
          <[name := ledger.setInUse a (quota.InUse (quotaOf a) - amount)]> s,
          [ledger.Find; ledger.ConditionalUpdate true]).
Proof.
  intros Hs Hle. simpl. rewrite Hs. simpl.
  destruct (Z.gtb_spec amount (quota.InUse (quotaOf a))); [lia|].
  unfold ledger.commit. rewrite (conditionalUpdate_fresh s a _ Hs).
  destruct fuel; reflexivity.
Qed.

(** A caller that read an unlimited quota writes with the unconditional
    increment whatever the other callers did to the store meanwhile: it
    makes no conditional update and never goes back to [Start]. *)
Lemma step_unlimited_no_retry amount q (s : gmap string A) acc p' s' :
  quota.IsUnlimited q = true ->
  ledger.step notFound ledger.Reserve name amount (ledger.Read q) s
  = Some (acc, p', s') ->
  acc = ledger.Increment /\ p' <> ledger.Start.
Proof.
  intros Hunl. simpl. rewrite Hunl.
  destruct (ledger.increment name amount s); intros [= <- <- <-];
    split; [reflexivity | discriminate | reflexivity | discriminate].
Qed.

End LedgerAlone.

Lemma withApps_same w : withApps w (apps w) = w.
Proof. destruct w; reflexivity. Qed.

Lemma fuel_two (fuel : nat) : (2 <= fuel)%nat -> exists k, fuel = S (S k).
Proof. intros Hf. exists (fuel - 2)%nat. lia. Qed.

(** ** [releaseUnits] and [reserveUnits] *)

(** C5: for an app whose quota has limit 7 and 7 in use, releasing 6
    units succeeds and leaves 1 in use; releasing 8 units fails with the
    "Not enough reserved units" error and leaves the world, and so the
    units in use, as they were. *)
Theorem releaseUnits_seven fuel app stored w :
  (2 <= fuel)%nat ->
  apps w !! Name app = Some stored ->
  Quota stored = {| quota.Limit := 7; quota.InUse := 7 |} ->
  releaseUnits fuel app 6 w
  = Some (None,
          withApps w
            (<[Name app := withQuota stored {| quota.Limit := 7;
                                               quota.InUse := 1 |}]> (apps w)))
  /\ releaseUnits fuel app 8 w
     = Some (Some ledger.ErrInsufficientReservation, w)
  /\ Error ledger.ErrInsufficientReservation = "Not enough reserved units".
Proof.
  intros [k ->]%fuel_two Hs Hq. unfold releaseUnits. repeat split.
  - rewrite (run_release_ok (OA := app_owner) ErrAppNotFound (Name app) k 6 (apps w) stored Hs).
    + unfold ledger.setInUse. simpl. rewrite Hq. reflexivity.
    + simpl. rewrite Hq. simpl. lia.
  - rewrite (run_release_insufficient (OA := app_owner) ErrAppNotFound (Name app) k 8 (apps w)
               stored Hs).
    + rewrite withApps_same. reflexivity.
    + simpl. rewrite Hq. simpl. lia.
Qed.

Lemma releaseUnits_seven_witness :
  let app := mkApp "together" "" {| quota.Limit := 7; quota.InUse := 7 |} in
  let w := mkWorld [app] [] in
  releaseUnits 2 app 6 w
  = Some (None,
          withApps w
            (<[Name app := withQuota app {| quota.Limit := 7;
                                            quota.InUse := 1 |}]> (apps w)))
  /\ releaseUnits 2 app 8 w
     = Some (Some ledger.ErrInsufficientReservation, w)
  /\ Error ledger.ErrInsufficientReservation = "Not enough reserved units".
Proof.
  intros app w.
  apply (releaseUnits_seven 2 app app w); [lia | reflexivity | reflexivity].
Defined.

(** C6: for an app whose quota is unlimited and for every amount,
    [reserveUnits] succeeds and stores the units in use increased by the
    amount; the caller reaches the store twice, to find the app and to
    increment, without any conditional update; and whatever the store
    holds when the caller writes, its write is the increment and it never
    starts again. *)
Theorem reserveUnits_unlimited fuel app stored amount w :
  (2 <= fuel)%nat ->
  apps w !! Name app = Some stored ->
  quota.IsUnlimited (Quota stored) = true ->
  reserveUnits fuel app amount w
  = Some (None,
          withApps w
            (<[Name app :=
                 withQuota stored
                   (quota.withInUse (Quota stored)
                      (quota.InUse (Quota stored) + amount))]> (apps w)))
  /\ ledger.run fuel ErrAppNotFound ledger.Reserve (Name app) amount
       ledger.Start (apps w)
     = Some (None,
             <[Name app :=
                 withQuota stored
                   (quota.withInUse (Quota stored)
                      (quota.InUse (Quota stored) + amount))]> (apps w),
             [ledger.Find; ledger.Increment])
  /\ forall (s : gmap string App) acc p' s',
       ledger.step ErrAppNotFound ledger.Reserve (Name app) amount
         (ledger.Read (Quota stored)) s = Some (acc, p', s') ->
       acc = ledger.Increment /\ p' <> ledger.Start.
Proof.
  intros [k ->]%fuel_two Hs Hunl. unfold reserveUnits.
  rewrite (run_reserve_unlimited (OA := app_owner) ErrAppNotFound (Name app) k amount (apps w)
             stored Hs Hunl).
  repeat split; try reflexivity;
    eapply (step_unlimited_no_retry (OA := app_owner) ErrAppNotFound (Name app) amount
              (Quota stored) s); eassumption.
Qed.

Lemma reserveUnits_unlimited_witness :
  let app := mkApp "together" "" quota.Unlimited in
  let w := mkWorld [app] [] in
  reserveUnits 2 app 6 w
  = Some (None,
          withApps w
            (<[Name app :=
                 withQuota app
                   (quota.withInUse (Quota app)
                      (quota.InUse (Quota app) + 6))]> (apps w)))
  /\ ledger.run 2 ErrAppNotFound ledger.Reserve (Name app) 6
       ledger.Start (apps w)
     = Some (None,
             <[Name app :=
                 withQuota app
                   (quota.withInUse (Quota app)
                      (quota.InUse (Quota app) + 6))]> (apps w),
             [ledger.Find; ledger.Increment])
  /\ forall (s : gmap string App) acc p' s',
       ledger.step ErrAppNotFound ledger.Reserve (Name app) 6
         (ledger.Read (Quota app)) s = Some (acc, p', s') ->
       acc = ledger.Increment /\ p' <> ledger.Start.
Proof.
  intros app w.
  apply (reserveUnits_unlimited 2 app app 6 w); [lia | reflexivity | reflexivity].
Defined.

(** ** The ledger under concurrent callers *)

Lemma sumZ_insert f (l : list ledger.pc) i p p' :
  l !! i = Some p -> sumZ f (<[i := p']> l) = sumZ f l - f p + f p'.
Proof.
  revert i. induction l as [|x l IH]; intros [|i] Hi; simpl in *;
    try discriminate.
  - injection Hi as ->. lia.
  - rewrite (IH i Hi). lia.
Qed.

Lemma sumZ_le f g c (l : list ledger.pc) :
  Forall (fun p => f p <= g p + c) l ->
  sumZ f l <= sumZ g l + c * Z.of_nat (length l).
Proof. induction 1; simpl length; simpl sumZ; lia. Qed.

Lemma sumZ_nonneg f (l : list ledger.pc) :
  (forall p, 0 <= f p) -> 0 <= sumZ f l.
Proof. intros Hf. induction l; simpl; [lia | specialize (Hf a); lia]. Qed.

Lemma count_nonneg f l : 0 <= count f l.
Proof. apply sumZ_nonneg. intros p. destruct (f p); lia. Qed.

Lemma count_finished l :
  forallb ledger.finished l = true ->
  count ledger.succeeded l + count ledger.failed l = Z.of_nat (length l).
Proof.
  unfold count. induction l as [|p l IH]; simpl; [reflexivity|].
  intros [Hp Hl]%andb_prop. specialize (IH Hl).
  destruct p as [| |[e|]]; simpl in *; try discriminate; lia.
Qed.

Lemma count_pos f l : 0 < count f l -> exists p, p ∈ l /\ f p = true.
Proof.
  unfold count. induction l as [|p l IH]; simpl; [lia|].
  destruct (f p) eqn:Hp.
  - intros _. exists p. split; [left | exact Hp].
  - intros Hpos. destruct IH as (p' & Hin & Hp'); [lia|].
    exists p'. split; [right; exact Hin | exact Hp'].
Qed.

Lemma count_all f g l :
  Forall (fun p => f p = true -> g p = true) l -> count f l <= count g l.
Proof.
  unfold count. induction 1 as [|p l Hp _ IH]; simpl; [lia|].
  destruct (f p); [rewrite Hp by reflexivity; lia | destruct (g p); lia].
Qed.

Lemma atomicInv_init : atomicInv atomicInit.
Proof.
  repeat split.
  - exists together. split; reflexivity.
  - vm_compute. discriminate.
  - apply Forall_replicate. exact I.
Qed.

Lemma inUseNow_lookup (sys : @ledger.system App) a :
  ledger.store sys !! "together" = Some a ->
  inUseNow sys = quota.InUse (Quota a).
Proof. intros Hs. unfold inUseNow, ledger.inUseOf. rewrite Hs. reflexivity. Qed.

Lemma weight_stale u u' p : callerOk u p -> weight u' p <= weight u p + 2.
Proof.
  destruct p as [|q|e]; simpl; intros _; repeat case_decide; lia.
Qed.

Lemma callerOk_grow u u' p : u <= u' -> u' <= 39 -> u < 39 \/ u' = u ->
  callerOk u p -> callerOk u' p.
Proof.
  intros Hle Hub Hlt. destruct p as [|q|[e|]]; simpl; try tauto.
  - intros (Hl & Hr & Hk). repeat split; try lia. exact Hk.
  - intros [-> Hu]. split; [reflexivity | lia].
Qed.

Lemma inUseNow_insert (s : gmap string App) c a :
  inUseNow {| ledger.store := <["together" := a]> s; ledger.callers := c |}
  = quota.InUse (Quota a).
Proof.
  unfold inUseNow, ledger.inUseOf. simpl. rewrite lookup_insert_eq.
  reflexivity.
Qed.

Lemma inUseNow_callers (s : gmap string App) c c' :
  inUseNow {| ledger.store := s; ledger.callers := c |}
  = inUseNow {| ledger.store := s; ledger.callers := c' |}.
Proof. reflexivity. Qed.

Lemma atomicStep_inv sys sys' :
  atomicInv sys -> atomicStep sys sys' ->
  atomicInv sys' /\ measure sys' < measure sys.
Proof.
  intros ([a [Hs Hlim]] & Hsum & Hle & Hlen & Hall) Hstep.
  pose proof (inUseNow_lookup sys a Hs) as Hu.
  pose proof (count_nonneg ledger.succeeded (ledger.callers sys)) as Hc.
  destruct Hstep as [i p acc p' s' [s c] Hi Hp]. simpl in *.
  pose proof (Forall_lookup_1 _ _ _ _ Hall Hi) as Hok.
  unfold atomicInv, measure. simpl ledger.store. simpl ledger.callers.
  destruct p as [|q|e]; simpl in Hp.
  - (* the caller reads the app *)
    rewrite Hs in Hp. injection Hp as <- <- <-.
    rewrite (inUseNow_callers s _ c).
    unfold count in *. rewrite !(sumZ_insert _ c i _ _ Hi). simpl.
    rewrite length_insert. rewrite Hu. case_decide; [|contradiction].
    repeat split; try lia.
    + exists a. split; assumption.
    + rewrite <- Hu. apply Forall_insert; [exact Hall|].
      simpl. rewrite Hu. repeat split; try lia.
      exists (sumZ (fun p => if ledger.succeeded p then 1 else 0) c). lia.
  - (* the caller decides on its snapshot *)
    destruct Hok as (Hql & Hqr & k & Hk).
    assert (quota.IsUnlimited q = false) as Hunl
      by (unfold quota.IsUnlimited; rewrite Hql; reflexivity).
    rewrite Hunl, Hql in Hp.
    destruct (Z.gtb_spec 3 (40 - quota.InUse q)) as [Hfull|Hroom].
    + (* no room left: the reservation is refused *)
      injection Hp as <- <- <-.
      rewrite (inUseNow_callers s _ c).
      unfold count in *. rewrite !(sumZ_insert _ c i _ _ Hi). simpl.
      rewrite length_insert.
      assert (quota.InUse q = 39) as Hq39 by lia.
      repeat split; try lia.
      * exists a. split; assumption.
      * apply Forall_insert; [exact Hall|]. simpl.
        split; [f_equal; lia | lia].
      * case_decide; lia.
    + unfold ledger.commit, ledger.conditionalUpdate in Hp.
      rewrite Hs in Hp. case_decide as Hcas; simpl in Hcas.
      * (* the conditional update goes through *)
        injection Hp as <- <- <-. rewrite !inUseNow_insert. simpl.
        unfold count in *. rewrite !(sumZ_insert _ c i _ _ Hi). simpl.
        rewrite length_insert.
        assert (inUseNow {| ledger.store := s; ledger.callers := c |}
                = quota.InUse q) as Huq by lia.
        rewrite Huq in *.
        repeat split; try lia.
        -- eexists. rewrite lookup_insert_eq. split; [reflexivity|].
           simpl. exact Hlim.
        -- apply Forall_insert; [|exact I].
           eapply Forall_impl; [exact Hall|]. intros p.
           apply callerOk_grow; lia.
        -- pose proof (sumZ_le (weight (quota.InUse q + 3))
                         (weight (quota.InUse q)) 2 c) as Hw.
           rewrite Hlen in Hw.
           assert (Forall (fun p => weight (quota.InUse q + 3) p
                                    <= weight (quota.InUse q) p + 2) c) as Hst.
           { eapply Forall_impl; [exact Hall|]. intros p. apply weight_stale. }
           specialize (Hw Hst).
           case_decide; lia.
      * (* another caller reserved meanwhile: start again *)
        injection Hp as <- <- <-.
        rewrite (inUseNow_callers s _ c).
        unfold count in *. rewrite !(sumZ_insert _ c i _ _ Hi). simpl.
        rewrite length_insert.
        repeat split; try lia.
        -- exists a. split; assumption.
        -- apply Forall_insert; [exact Hall | exact I].
        -- case_decide; lia.
  - discriminate.
Qed.

Lemma atomicInv_reachable sys :
  rtc atomicStep atomicInit sys -> atomicInv sys.
Proof.
  revert sys. apply (rtc_ind_r atomicInv atomicInit).
  - exact atomicInv_init.
  - intros mid sys _ Hstep IH.
    exact (proj1 (atomicStep_inv mid sys IH Hstep)).
Qed.

Lemma measure_nonneg sys : atomicInv sys -> 0 <= measure sys.
Proof.
  intros (_ & _ & Hle & _ & _). unfold measure.
  pose proof (sumZ_nonneg (weight (inUseNow sys)) (ledger.callers sys)) as Hw.
  assert (forall p, 0 <= weight (inUseNow sys) p) as Hp.
  { intros [|q|e]; simpl; try case_decide; lia. }
  specialize (Hw Hp). lia.
Qed.

(** Every access uses up some of the measure: a run from the initial
    state has at most as many accesses as the measure of that state. *)
Lemma atomic_run_bounded n sys :
  nsteps atomicStep n atomicInit sys ->
  atomicInv sys /\ measure sys + Z.of_nat n <= measure atomicInit.
Proof.
  revert sys. induction n as [|n IH]; intros sys Hrun.
  - inversion Hrun; subst. split; [exact atomicInv_init | lia].
  - apply nsteps_inv_r in Hrun as (mid & Hrun & Hstep).
    destruct (IH mid Hrun) as [Hinv Hm].
    destruct (atomicStep_inv mid sys Hinv Hstep) as [Hinv' Hlt].
    split; [exact Hinv' | lia].
Qed.

(** As long as a caller has not returned, some caller can make an
    access. *)
Lemma atomic_progress sys :
  atomicInv sys -> ledger.all_finished sys = false ->
  exists sys', atomicStep sys sys'.
Proof.
  intros ([a [Hs _]] & _) Hnot. unfold ledger.all_finished in Hnot.
  assert (exists i p, ledger.callers sys !! i = Some p
                      /\ ledger.finished p = false) as (i & p & Hi & Hp).
  { induction (ledger.callers sys) as [|p l IH]; simpl in Hnot;
      [discriminate|].
    destruct (ledger.finished p) eqn:Hp.
    - destruct (IH Hnot) as (i & p' & Hi & Hp'). exists (S i), p'. auto.
    - exists 0%nat, p. auto. }
  destruct (ledger.step ErrAppNotFound ledger.Reserve "together" 3 p
              (ledger.store sys)) as [[[acc p'] s']|] eqn:Hstep.
  - eexists. eapply ledger.sys_step_caller; eassumption.
  - destruct p as [|q|e]; simpl in Hstep; simpl in Hp; try discriminate.
    + rewrite Hs in Hstep. discriminate.
    + destruct (quota.IsUnlimited q);
        [destruct (ledger.increment "together" 3 (ledger.store sys))
        |destruct (3 >? quota.Limit q - quota.InUse q)]; discriminate.
Qed.

(** What a scheduler does is a run. *)
Lemma schedule_run {A : Type} {OA : Owner A} notFound o name amount
    (sched : list nat) (sys : @ledger.system A) :
  rtc (ledger.sys_step notFound o name amount) sys
    (ledger.schedule notFound o name amount sys sched).
Proof.
  revert sys. induction sched as [|i sched IH]; intros sys; simpl.
  - apply rtc_refl.
  - unfold ledger.schedule in *. simpl.
    unfold ledger.schedule_one at 2.
    destruct (ledger.callers sys !! i) as [p|] eqn:Hi; [|apply IH].
    destruct (ledger.step notFound o name amount p (ledger.store sys))
      as [[[acc p'] s']|] eqn:Hstep; [|apply IH].
    eapply rtc_l; [|apply IH].
    eapply ledger.sys_step_caller; eassumption.
Qed.

Lemma atomicFinal_all_finished : ledger.all_finished atomicFinal = true.
Proof. vm_compute. reflexivity. Qed.

Lemma atomic_final sys :
  atomicInv sys -> ledger.all_finished sys = true ->
  inUseNow sys = 39
  /\ count ledger.succeeded (ledger.callers sys) = 13
  /\ count (exceeded 3 1) (ledger.callers sys) = 7.
Proof.
  intros (_ & Hsum & Hle & Hlen & Hall) Hfin.
  pose proof (count_finished _ Hfin) as Hsplit. rewrite Hlen in Hsplit.
  pose proof (count_nonneg ledger.succeeded (ledger.callers sys)) as Hc.
  assert (0 < count ledger.failed (ledger.callers sys)) as Hpos by lia.
  apply count_pos in Hpos as (p & Hin & Hp).
  rewrite Forall_forall in Hall. pose proof (Hall p Hin) as Hok.
  destruct p as [| |[e|]]; simpl in Hp; try discriminate.
  destruct Hok as [_ Hu].
  assert (count (exceeded 3 1) (ledger.callers sys)
          = count ledger.failed (ledger.callers sys)) as Hex.
  { apply Z.le_antisymm; apply count_all; apply Forall_forall;
      intros p Hp' Hq; specialize (Hall p Hp');
      destruct p as [| |[e'|]]; simpl in *; try discriminate.
    - reflexivity.
    - destruct Hall as [-> _]. reflexivity. }
  lia.
Qed.

(** C1: twenty callers of [reserveUnits(&app, 3)] against a limit of 40
    with nothing in use, their accesses to the store interleaved in any
    order. At every moment of the run the units in use are three times
    the callers that have succeeded and at most 40, and every caller that
    returned has either reserved its 3 units or been refused with
    [QuotaExceeded] for 3 requested and 1 available. When all callers
    have returned, 39 units are in use, 13 callers have succeeded and 7
    have been refused. And the callers do return: while one has not, an
    access is possible, and no run makes more than 560 accesses. *)
Theorem reserveUnits_is_atomic sys :
  rtc atomicStep atomicInit sys ->
  (exists a, ledger.store sys !! "together" = Some a
             /\ quota.InUse (Quota a) = inUseNow sys)
  /\ inUseNow sys = 3 * count ledger.succeeded (ledger.callers sys)
  /\ inUseNow sys <= 40
  /\ Forall (fun p => ledger.finished p = true ->
                      p = ledger.Finished None
                      \/ p = ledger.Finished (Some (QuotaExceededError 3 1)))
       (ledger.callers sys)
  /\ (ledger.all_finished sys = true ->
      inUseNow sys = 39
      /\ count ledger.succeeded (ledger.callers sys) = 13
      /\ count (exceeded 3 1) (ledger.callers sys) = 7)
  /\ (ledger.all_finished sys = false -> exists sys', atomicStep sys sys')
  /\ (forall n, nsteps atomicStep n atomicInit sys -> (n <= 560)%nat).
Proof.
  intros Hrun. pose proof (atomicInv_reachable sys Hrun) as Hinv.
  pose proof Hinv as ([a [Hs Hlim]] & Hsum & Hle & Hlen & Hall).
  repeat split; try assumption.
  - exists a. split; [exact Hs|]. symmetry. apply inUseNow_lookup, Hs.
  - eapply Forall_impl; [exact Hall|].
    intros [| |[e|]]; simpl; try discriminate; auto.
    intros [-> _] _. right. reflexivity.
  - apply atomic_final; assumption.
  - apply atomic_final; assumption.
  - apply atomic_final; assumption.
  - apply atomic_progress; assumption.
  - intros n Hn. destruct (atomic_run_bounded n sys Hn) as [_ Hm].
    pose proof (measure_nonneg sys Hinv) as H0.
    change (measure atomicInit) with 560 in Hm. lia.
Qed.

Lemma reserveUnits_is_atomic_witness :
  ledger.all_finished atomicFinal = true
  /\ (exists a, ledger.store atomicFinal !! "together" = Some a
                /\ quota.InUse (Quota a) = inUseNow atomicFinal)
  /\ inUseNow atomicFinal
     = 3 * count ledger.succeeded (ledger.callers atomicFinal)
  /\ inUseNow atomicFinal <= 40
  /\ Forall (fun p => ledger.finished p = true ->
                      p = ledger.Finished None
                      \/ p = ledger.Finished (Some (QuotaExceededError 3 1)))
       (ledger.callers atomicFinal)
  /\ (ledger.all_finished atomicFinal = true ->
      inUseNow atomicFinal = 39
      /\ count ledger.succeeded (ledger.callers atomicFinal) = 13
      /\ count (exceeded 3 1) (ledger.callers atomicFinal) = 7)
  /\ (ledger.all_finished atomicFinal = false ->
      exists sys', atomicStep atomicFinal sys')
  /\ (forall n, nsteps atomicStep n atomicInit atomicFinal -> (n <= 560)%nat).
Proof.
  split; [vm_compute; reflexivity|].
  apply (reserveUnits_is_atomic atomicFinal).
  apply schedule_run.
Defined.

(** ** The pipeline executor *)

Lemma rollback_calls params done w w' calls :
  action.rollback params done w = (w', calls, true) ->
  calls = action.backwardCalls done.
Proof.
  revert w w' calls. induction done as [|[[i a] r] older IH];
    intros w w' calls Hrb; simpl in Hrb.
  - injection Hrb as <- <-. reflexivity.
  - unfold action.backwardCalls. simpl.
    destruct (action.Backward a) as [bw|]; [|exact (IH _ _ _ Hrb)].
    destruct (bw _ w) as [w1|]; [|discriminate].
    destruct (action.rollback params older w1) as [[w2 calls2] ok] eqn:Hrest.
    injection Hrb as <- <- ->. simpl. do 2 f_equal. exact (IH _ _ _ Hrest).
Qed.

Lemma unwind_failed err params done w err' w' calls :
  action.unwind err params done w = (action.Failed err', w', calls) ->
  err' = err /\ calls = action.backwardCalls done.
Proof.
  unfold action.unwind.
  destruct (action.rollback params done w) as [[w1 calls1] ok] eqn:Hrb.
  destruct ok; [|discriminate]. intros [= <- <- <-].
  split; [reflexivity | exact (rollback_calls _ _ _ _ _ Hrb)].
Qed.

(** A failed run of any pipeline made [n] forward calls, in the order of
    the pipeline, and then unwound the [k] Actions it had recorded, the
    latest first: the backward of an Action is never called before the
    backward of a later Action has returned. *)
Lemma execute_from_unwinds actions i params previous done w err w' calls :
  action.execute_from i actions params previous done w
  = (action.Failed err, w', calls) ->
  exists n k done',
    calls = map action.CallForward (seq i n) ++ action.backwardCalls done'
    /\ action.positions done' = rev (seq i k) ++ action.positions done
    /\ (k <= n <= S k)%nat.
Proof.
  revert i previous done w calls.
  induction actions as [|a rest IH]; intros i previous done w calls Hex;
    simpl in Hex; [discriminate|].
  destruct (length params <? action.MinParams a)%nat.
  { apply unwind_failed in Hex as [_ ->]. exists 0%nat, 0%nat, done.
    repeat split; lia. }
  destruct (action.Forward a _ w) as [[r [e|]| |] w1]; try discriminate.
  - destruct (action.unwind e params done w1) as [[res w2] calls2] eqn:Hun.
    injection Hex as -> <- <-. apply unwind_failed in Hun as [_ ->].
    exists 1%nat, 0%nat, done. repeat split; lia.
  - destruct (action.execute_from (S i) rest params r ((i, a, r) :: done) w1)
      as [[res w2] calls2] eqn:Hrest.
    injection Hex as -> <- <-.
    destruct (IH _ _ _ _ _ Hrest) as (n & k & done' & -> & Hpos & Hnk).
    exists (S n), (S k), done'. repeat split; try lia.
    rewrite Hpos. simpl. rewrite <- app_assoc. reflexivity.
Qed.

(** C2: in a pipeline [A; B; C] where the forwards of [A] and [B] succeed
    and the forward of [C] fails, the executor calls the backward of [B],
    lets it return, then calls the backward of [A], and never calls the
    backward of [C]; each backward receives the result of its own
    forward and the world the previous call left; the error of [C] is
    handed to the caller. *)
Theorem execute_rolls_back_in_reverse
    (A B C : action.Action) params seed w0 rA w1 rB w2 rC err w3
    bwA bwB w4 w5 :
  (action.MinParams A <= length params)%nat ->
  (action.MinParams B <= length params)%nat ->
  (action.MinParams C <= length params)%nat ->
  action.Forward A {| action.Previous := seed; action.Params := params |} w0
  = (action.Return rA None, w1) ->
  action.Forward B {| action.Previous := rA; action.Params := params |} w1
  = (action.Return rB None, w2) ->
  action.Forward C {| action.Previous := rB; action.Params := params |} w2
  = (action.Return rC (Some err), w3) ->
  action.Backward B = Some bwB ->
  action.Backward A = Some bwA ->
  bwB {| action.FWResult := rB; action.BWParams := params |} w3 = Some w4 ->
  bwA {| action.FWResult := rA; action.BWParams := params |} w4 = Some w5 ->
  let calls := [action.CallForward 0; action.CallForward 1;
                action.CallForward 2;
                action.CallBackward 1; action.ReturnBackward 1;
                action.CallBackward 0; action.ReturnBackward 0] in
  action.Execute [A; B; C] params seed w0 = (action.Failed err, w5, calls)
  /\ action.CallBackward 2 ∉ calls.
Proof.
  intros HA HB HC HfA HfB HfC HbB HbA HrB HrA calls. split.
  - unfold action.Execute. simpl.
    apply Nat.ltb_ge in HA, HB, HC. rewrite HA, HfA, HB, HfB, HC, HfC.
    unfold action.unwind. simpl. rewrite HbB, HrB, HbA, HrA. reflexivity.
  - unfold calls. rewrite !elem_of_cons, elem_of_nil.
    intros H. repeat destruct H as [H|H]; try discriminate; exact H.
Qed.

Lemma execute_rolls_back_in_reverse_witness :
  let calls := [action.CallForward 0; action.CallForward 1;
                action.CallForward 2;
                action.CallBackward 1; action.ReturnBackward 1;
                action.CallBackward 0; action.ReturnBackward 0] in
  action.Execute [reserveUserApp 2; insertApp; insertApp] clapParams VNil
    clapWorld
  = (action.Failed ErrAppAlreadyExists, clapWorld, calls)
  /\ action.CallBackward 2 ∉ calls.
Proof.
  pose (rA := VStringMap (<["user" := "clap@yes.com"]> (<["app" := "clap"]> ∅))).
  pose (w1 := (reserveUserApp_Forward 2
                 {| action.Previous := VNil; action.Params := clapParams |}
                 clapWorld).2).
  pose (rB := VAppPtr (withUnits (withQuota clapApp quota.Unlimited)
                         [emptyUnit])).
  pose (w2 := (insertApp_Forward
                 {| action.Previous := rA; action.Params := clapParams |}
                 w1).2).
  apply (execute_rolls_back_in_reverse (reserveUserApp 2) insertApp insertApp
           clapParams VNil clapWorld rA w1 rB w2 VNil ErrAppAlreadyExists w2
           (reserveUserApp_Backward 2) insertApp_Backward w1 clapWorld);
    first [ reflexivity | cbn; lia ].
Defined.

(** ** [saveNewUnitsInDatabase] *)

Section SaveNewUnitsProofs.
Variable AddUnit : App -> Unit -> App.
Variable StatusBuilding_String : string.
Variables RegenerateApprcAndStart BindService : string.

Local Abbreviation saveUnit' :=
  (saveUnit AddUnit StatusBuilding_String RegenerateApprcAndStart BindService).
Local Abbreviation unitMessages' :=
  (unitMessages AddUnit StatusBuilding_String RegenerateApprcAndStart
     BindService).
Local Abbreviation addUnits' := (addUnits AddUnit StatusBuilding_String).

(** The loop fills the slots of [messages] from left to right: after
    it, the array holds the two messages of each unit, in the order of
    the units, and no slot is left empty or written out of range. *)
Lemma saveUnit_loop units app done :
  fold_left saveUnit' units
    (app, done ++ replicate (length units * 2) zeroMessage, length done)
  = (addUnits' app units, done ++ unitMessages' app units,
     (length done + length units * 2)%nat).
Proof.
  revert app done. induction units as [|unit units IH]; intros app done.
  - simpl. rewrite Nat.add_0_r. reflexivity.
  - simpl fold_left.
    rewrite (insert_app_r_alt done _ (length done)) by lia.
    rewrite Nat.sub_diag. simpl.
    rewrite (insert_app_r_alt done _ (length done + 1)) by lia.
    replace (length done + 1 - length done)%nat with 1%nat by lia. simpl.
    match goal with
    | |- context [done ++ ?m1 :: ?m2 :: replicate _ _] =>
        specialize (IH (AddUnit app (newUnit StatusBuilding_String unit))
                      (done ++ [m1; m2]))
    end.
    rewrite length_app in IH. simpl in IH. rewrite <- app_assoc in IH.
    simpl in IH. rewrite IH. f_equal; [|lia]. f_equal.
    rewrite <- app_assoc. reflexivity.
Qed.

Lemma unitMessages_length app units :
  length (unitMessages' app units) = (2 * length units)%nat.
Proof.
  revert app. induction units as [|unit units IH]; intros app; simpl;
    [reflexivity | rewrite IH; lia].
Qed.

Lemma unitMessages_actions app units :
  map queue.Action (unitMessages' app units)
  = flat_map (fun _ => [RegenerateApprcAndStart; BindService]) units.
Proof.
  revert app. induction units as [|unit units IH]; intros app; simpl;
    [reflexivity | rewrite IH; reflexivity].
Qed.

(** C8: when [saveNewUnitsInDatabase.Forward] succeeds, the world has
    seen, after what was logged before, the update of the units of the
    app, committed, and then the start of the goroutine that enqueues
    the messages - one [RegenerateApprcAndStart] and one [BindService]
    message for each unit added, in the order of the units. When it
    returns an error, the apps are as they were and the log has grown
    by nothing or by the update that failed with that error: nothing is
    enqueued. *)
Theorem saveNewUnits_enqueues_after_update ctx w r err w' :
  saveNewUnitsInDatabase_Forward AddUnit StatusBuilding_String
    RegenerateApprcAndStart BindService ctx w
  = (action.Return r err, w') ->
  match err with
  | None =>
      unitsSaved AddUnit StatusBuilding_String RegenerateApprcAndStart
        BindService ctx w r w'
  | Some e => nothingEnqueued e w r w'
  end.
Proof.
  unfold saveNewUnitsInDatabase_Forward. intros Hfw.
  destruct (action.Params ctx !! 0%nat) as [p0|] eqn:Hp0; [|discriminate].
  destruct (asApp p0) as [app|] eqn:Happ.
  2: { destruct p0; try discriminate; injection Hfw as <- <- <-;
         repeat split; left; reflexivity. }
  assert (Hsame :
    match action.Previous ctx with
    | VAddUnitsResultPtr units =>
        match db.Conn w with
        | Some err => (action.Return VNil (Some err), w)
        | None =>
            match App_Get app w with
            | (_, Some _) => (action.Return VNil (Some ErrAppNotFound), w)
            | (app, None) =>
                let '(app, messages, _) :=
                  fold_left saveUnit' units
                    (app, replicate (length units * 2) zeroMessage, 0%nat) in
                match db.AppsUpdateUnits (Name app) (Units app) w with
                | (Some err, w') => (action.Return VNil (Some err), w')
                | (None, w') =>
                    (action.Return VNil None, emit (EvGoEnqueue messages) w')
                end
            end
        end
    | _ => (action.Panic, w)
    end = (action.Return r err, w')).
  { apply asApp_Some in Happ as [-> | ->]; exact Hfw. }
  clear Hfw.
  destruct (action.Previous ctx) eqn:Hprev; try discriminate.
  unfold App_Get, db.AppsFind in Hsame.
  destruct (db.Conn w) as [e|] eqn:Hconn.
  { injection Hsame as <- <- <-. repeat split. left. reflexivity. }
  destruct (apps w !! Name app) as [stored|] eqn:Hstored.
  2: { injection Hsame as <- <- <-. repeat split. left. reflexivity. }
  pose proof (saveUnit_loop units stored []) as Hloop. simpl in Hloop.
  rewrite Hloop in Hsame. clear Hloop.
  unfold db.AppsUpdateUnits in Hsame.
  destruct (updateErr w) as [e|].
  { injection Hsame as <- <- <-. repeat split. right. eauto. }
  destruct (apps w !! Name (addUnits' stored units)) as [old|] eqn:Hold.
  2: { injection Hsame as <- <- <-. repeat split. right. eauto. }
  injection Hsame as <- <- <-.
  exists p0, app, stored, units. repeat split; try assumption.
  - simpl. rewrite <- app_assoc. reflexivity.
  - exists old. split; [exact Hold | reflexivity].
  - apply unitMessages_length.
  - apply unitMessages_actions.
Qed.
End SaveNewUnitsProofs.

Lemma saveNewUnits_enqueues_after_update_witness :
  let forward :=
    saveNewUnitsInDatabase_Forward appendUnit "building"
      "regenerate-apprc-start-app" "bind-service" in
  unitsSaved appendUnit "building" "regenerate-apprc-start-app" "bind-service"
    visionsCtx visionsWorld VNil (forward visionsCtx visionsWorld).2.
Proof.
  intros forward.
  apply (saveNewUnits_enqueues_after_update appendUnit "building"
           "regenerate-apprc-start-app" "bind-service"
           visionsCtx visionsWorld VNil None
           (forward visionsCtx visionsWorld).2).
  reflexivity.
Defined.

(** The same forward when the update is refused by the database. *)
Example saveNewUnits_update_fails :
  let err := ExternalFailure "connection reset" in
  let w := withUpdateErr visionsWorld err in
  exists w',
    saveNewUnitsInDatabase_Forward appendUnit "building"
      "regenerate-apprc-start-app" "bind-service" visionsCtx w
    = (action.Return VNil (Some err), w')
    /\ nothingEnqueued err w VNil w'.
Proof.
  intros err w. eexists. split; [reflexivity|].
  repeat split. right. eexists _, _. reflexivity.
Qed.

(** ** [exportEnvironmentsAction] *)

Lemma log_emit_twice ev1 ev2 w :
  log (emit ev2 (emit ev1 w)) = log w ++ [ev1; ev2].
Proof. simpl. rewrite <- app_assoc. reflexivity. Qed.

Section ExportEnvironmentsProofs.
Variable s3InstanceName : string.
Variable rangeMap : gmap string string -> list (string * string).

(** [range] visits every entry of the map once, in some order. *)
Hypothesis rangeMap_once : forall m, rangeMap m ≡ₚ map_to_list m.

Lemma s3EnvVar_names (entries : list (string * string)) init :
  map bind.Name
    (fold_left (fun acc entry => acc ++ [s3EnvVar s3InstanceName entry])
       entries init)
  = map bind.Name init ++ map (fun entry => "TSURU_S3_" +:+ entry.1) entries.
Proof.
  revert init. induction entries as [|entry entries IH]; intros init; simpl.
  - rewrite app_nil_r. reflexivity.
  - rewrite IH, map_app, <- app_assoc. reflexivity.
Qed.

Lemma s3Variables_names env :
  map (fun entry : string * string => "TSURU_S3_" +:+ entry.1)
    (rangeMap (s3Variables env))
  ≡ₚ s3EnvNames.
Proof.
  rewrite (Permutation_map _ (rangeMap_once (s3Variables env))).
  unfold s3Variables.
  match goal with
  | |- context [list_to_map ?l] =>
      assert (NoDup l.*1) as Hkeys
        by (apply (bool_decide_unpack _); vm_compute; reflexivity);
      rewrite (Permutation_map _ (map_to_list_to_map l Hkeys))
  end.
  reflexivity.
Qed.

(** C9: when [exportEnvironmentsAction.Forward] succeeds, the variables
    it sets on the app are named [TSURU_APPNAME], [TSURU_HOST] and
    [TSURU_APP_TOKEN], followed, when the previous result is a
    [*s3Env], by [TSURU_S3_ENDPOINT], [TSURU_S3_LOCATIONCONSTRAINT],
    [TSURU_S3_ACCESS_KEY_ID], [TSURU_S3_SECRET_KEY] and
    [TSURU_S3_BUCKET], each once, in the order in which [range] visits
    the map; no other variable is set. *)
Theorem exportEnvironments_names ctx w r w' :
  exportEnvironments_Forward s3InstanceName rangeMap ctx w
  = (action.Return r None, w') ->
  exists s3Names,
    environmentsExported ctx w r w' s3Names
    /\ if isS3Env (action.Previous ctx)
       then s3Names ≡ₚ s3EnvNames
       else s3Names = [].
Proof.
  unfold exportEnvironments_Forward, App_Get, db.AppsFind. intros Hfw.
  destruct (action.Params ctx !! 0%nat) as [p0|] eqn:Hp0; [|discriminate].
  destruct p0; try discriminate.
  destruct (db.Conn w); [discriminate|].
  destruct (apps w !! Name a) as [stored|] eqn:Hstored; [|discriminate].
  unfold CreateApplicationToken, setEnvsToApp in Hfw. simpl in Hfw.
  destruct (tokenErr w); [discriminate|].
  change (setEnvsErr (emit _ w)) with (setEnvsErr w) in Hfw.
  destruct (setEnvsErr w); [discriminate|].
  injection Hfw as <- <-.
  destruct (action.Previous ctx) eqn:Hprev; simpl isS3Env; cbv iota;
    try (exists []; split; [|reflexivity];
         exists a, stored; eexists; repeat split; try eassumption;
         first [apply log_emit_twice | symmetry; exact Hprev | reflexivity]).
  eexists. split.
  - exists a, stored. eexists. repeat split; try eassumption.
    + symmetry. exact Hprev.
    + apply log_emit_twice.
    + unfold exportEnvironments_envVars. rewrite s3EnvVar_names.
      reflexivity.
  - apply s3Variables_names.
Qed.
End ExportEnvironmentsProofs.

Lemma exportEnvironments_names_witness :
  let forward := exportEnvironments_Forward "tsurus3" map_to_list in
  exists s3Names,
    environmentsExported mistCtx mistWorld
      (VS3EnvPtr mistEnv) (forward mistCtx mistWorld).2 s3Names
    /\ s3Names ≡ₚ s3EnvNames.
Proof.
  intros forward.
  apply (exportEnvironments_names "tsurus3" map_to_list
           (fun m => reflexivity (map_to_list m))
           mistCtx mistWorld (VS3EnvPtr mistEnv)
           (forward mistCtx mistWorld).2).
  reflexivity.
Defined.

(** * Further properties of the actions *)

(** ** The first parameter *)

Section FirstParameter.
Variable Provision : App -> World -> option error * World.
Variable AddUnits : App -> Z -> World -> (list provision.Unit + error) * World.
Variable GetTeams : App -> World -> list (list string).
Variable NewRepository :
  string -> list string -> bool -> World -> option error * World.
Variable AddUnit : App -> Unit -> App.
Variable StatusBuilding_String : string.
Variables RegenerateApprcAndStart BindService : string.

(** X1: each of the seven actions that switch on the type of
    [Params[0]] answers a first parameter that is neither an [App] nor a
    [*App] with a nil result and the error "First parameter must be App
    or *App.", which names the position; it does so before it reads
    anything else - the other parameters and the previous result may be
    missing or of any type - and it leaves the world as it is. *)
Theorem first_parameter_must_be_app fuel ctx p0 w :
  action.Params ctx !! 0%nat = Some p0 ->
  asApp p0 = None ->
  let refused := (action.Return VNil (Some errFirstParamApp), w) in
  reserveUserApp_Forward fuel ctx w = refused
  /\ insertApp_Forward ctx w = refused
  /\ createRepository_Forward GetTeams NewRepository ctx w = refused
  /\ provisionApp_Forward Provision ctx w = refused
  /\ reserveUnitsToAdd_Forward fuel ctx w = refused
  /\ provisionAddUnits_Forward AddUnits ctx w = refused
  /\ saveNewUnitsInDatabase_Forward AddUnit StatusBuilding_String
       RegenerateApprcAndStart BindService ctx w = refused
  /\ Error errFirstParamApp = "First parameter must be App or *App."
  /\ namesPosition 0 errFirstParamApp = true.
Proof.
  intros Hp0 Hty refused.
  unfold reserveUserApp_Forward, insertApp_Forward, createRepository_Forward,
    provisionApp_Forward, reserveUnitsToAdd_Forward,
    provisionAddUnits_Forward, saveNewUnitsInDatabase_Forward.
  rewrite Hp0.
  destruct p0; simpl in Hty; try discriminate; repeat split; reflexivity.
Qed.

End FirstParameter.

Lemma first_parameter_must_be_app_witness :
  let ctx := {| action.Previous := VNil;
                action.Params := [VString "something"] |} in
  let w := mkWorld [] [] in
  let refused := (action.Return VNil (Some errFirstParamApp), w) in
  reserveUserApp_Forward 0 ctx w = refused
  /\ insertApp_Forward ctx w = refused
  /\ createRepository_Forward (fun _ _ => []) (fun _ _ _ w => (None, w)) ctx w
     = refused
  /\ provisionApp_Forward (fun _ w => (None, w)) ctx w = refused
  /\ reserveUnitsToAdd_Forward 0 ctx w = refused
  /\ provisionAddUnits_Forward (fun _ _ w => (inl [], w)) ctx w = refused
  /\ saveNewUnitsInDatabase_Forward appendUnit "building"
       "regenerate-apprc-start-app" "bind-service" ctx w = refused
  /\ Error errFirstParamApp = "First parameter must be App or *App."
  /\ namesPosition 0 errFirstParamApp = true.
Proof.
  intros ctx w.
  apply (first_parameter_must_be_app (fun _ w => (None, w))
           (fun _ _ w => (inl [], w)) (fun _ _ => [])
           (fun _ _ _ w => (None, w)) appendUnit "building"
           "regenerate-apprc-start-app" "bind-service" 0%nat ctx
           (VString "something") w); reflexivity.
Defined.

(** ** [ProvisionerDeploy] and [IncrementDeploy] *)

(** X2: [ProvisionerDeploy.Forward] checks its three parameters in
    order - a [*App], a [string], a [io.Writer] - and answers the first
    one of the wrong type with a nil result and an error that names its
    position, without deploying; [IncrementDeploy.Forward] does the same
    for its only parameter. Unlike the other actions, both refuse an
    [App] passed by value. *)
Theorem ProvisionerDeploy_names_offending_position
    (Deploy : App -> string -> string -> World -> option error * World)
    (incrementDeploy : App -> World -> option error * World) ctx i v w :
  (i < 3)%nat ->
  action.Params ctx !! i = Some v ->
  deployTypeOk i v = false ->
  (forall j, (j < i)%nat ->
     exists v', action.Params ctx !! j = Some v' /\ deployTypeOk j v' = true) ->
  exists err,
    ProvisionerDeploy_Forward Deploy ctx w
    = (action.Return VNil (Some err), w)
    /\ namesPosition i err = true
    /\ (i = 0%nat ->
        IncrementDeploy_Forward incrementDeploy ctx w
        = (action.Return VNil (Some err), w)).
Proof.
  intros Hi Hv Hbad Hbefore.
  unfold ProvisionerDeploy_Forward, IncrementDeploy_Forward.
  destruct i as [|[|[|i]]]; [| | |lia].
  - rewrite Hv. exists (errors_New "First parameter must be a *App.").
    destruct v; simpl in Hbad; try discriminate; repeat split.
  - destruct (Hbefore 0%nat) as (v0 & -> & H0); [lia|].
    destruct v0; simpl in H0; try discriminate.
    rewrite Hv. exists (errors_New "Second parameter must be a string.").
    destruct v; simpl in Hbad; try discriminate; repeat split; discriminate.
  - destruct (Hbefore 0%nat) as (v0 & -> & H0); [lia|].
    destruct v0; simpl in H0; try discriminate.
    destruct (Hbefore 1%nat) as (v1 & -> & H1); [lia|].
    destruct v1; simpl in H1; try discriminate.
    rewrite Hv. exists (errors_New "Third parameter must be a io.Writer.").
    destruct v; simpl in Hbad; try discriminate; repeat split; discriminate.
Qed.

Lemma ProvisionerDeploy_names_offending_position_witness :
  let ctx := {| action.Previous := VNil;
                action.Params := [VApp (mkApp "someApp" "django" zeroQuota);
                                  VString "version"; VWriter ""] |} in
  let w := mkWorld [] [] in
  exists err,
    ProvisionerDeploy_Forward (fun _ _ _ w => (None, w)) ctx w
    = (action.Return VNil (Some err), w)
    /\ namesPosition 0 err = true
    /\ (0%nat = 0%nat ->
        IncrementDeploy_Forward (fun _ w => (None, w)) ctx w
        = (action.Return VNil (Some err), w)).
Proof.
  intros ctx w.
  apply (ProvisionerDeploy_names_offending_position
           (fun _ _ _ w => (None, w)) (fun _ w => (None, w)) ctx 0%nat
           (VApp (mkApp "someApp" "django" zeroQuota)) w);
    [lia | reflexivity | reflexivity | intros j Hj; lia].
Defined.

(** ** [insertApp], forward and backward *)

Lemma withApps_withApps w m m' : withApps (withApps w m) m' = withApps w m'.
Proof. reflexivity. Qed.

(** What a forward of [insertApp] that reached the database did. *)
Lemma insertApp_Forward_inv ctx w out w' :
  insertApp_Forward ctx w = (out, w') ->
  (w' = w /\ forall r, out <> action.Return r None)
  \/ exists a, apps w !! Name a = None /\ db.Conn w = None
               /\ out = action.Return (VAppPtr a) None
               /\ w' = withApps w (<[Name a := a]> (apps w)).
Proof.
  unfold insertApp_Forward, db.AppsInsert. intros Hfw.
  destruct (action.Params ctx !! 0%nat) as [p0|];
    [|injection Hfw as <- <-; left; split; [reflexivity | discriminate]].
  destruct (asApp p0) as [app|] eqn:Happ.
  2: { destruct p0; try discriminate; injection Hfw as <- <-; left;
         (split; [reflexivity | discriminate]). }
  assert (exists a,
    match db.Conn w with
    | Some err => (action.Return VNil (Some err), w)
    | None =>
        match
          match apps w !! Name a with
          | Some _ => (Some (inl tt), w)
          | None =>
              match insertErr w with
              | Some e => (Some (inr e), w)
              | None => (None, withApps w (<[Name a := a]> (apps w)))
              end
          end
        with
        | (Some (inl _), w1) =>
            (action.Return VNil (Some ErrAppAlreadyExists), w1)
        | (Some (inr err), w1) => (action.Return (VAppPtr a) (Some err), w1)
        | (None, w1) => (action.Return (VAppPtr a) None, w1)
        end
    end = (out, w')) as [a Ha].
  { apply asApp_Some in Happ as [-> | ->]; eexists; exact Hfw. }
  clear Hfw. destruct (db.Conn w) eqn:Hconn;
    [injection Ha as <- <-; left; split; [reflexivity | discriminate]|].
  destruct (apps w !! Name a) eqn:Hfree;
    [injection Ha as <- <-; left; split; [reflexivity | discriminate]|].
  destruct (insertErr w); injection Ha as <- <-;
    [left; split; [reflexivity | discriminate] | right].
  exists a. repeat split; assumption.
Qed.

(** X3: the backward of [insertApp] undoes its forward: after a forward
    that succeeded, the backward called with the result of that forward
    gives back the world in which the forward started. *)
Theorem insertApp_backward_undoes_forward ctx w r w' :
  insertApp_Forward ctx w = (action.Return r None, w') ->
  insertApp_Backward
    {| action.FWResult := r; action.BWParams := action.Params ctx |} w'
  = Some w.
Proof.
  intros Hfw.
  apply insertApp_Forward_inv in Hfw as [[_ Hno]|(a & Hfree & Hconn & Hr & ->)].
  - exfalso. exact (Hno r eq_refl).
  - injection Hr as ->. unfold insertApp_Backward, db.Conn in *. simpl.
    rewrite Hconn. unfold db.AppsRemove. simpl.
    rewrite withApps_withApps, (delete_insert_id _ _ _ Hfree).
    f_equal. apply withApps_same.
Qed.

Lemma insertApp_backward_undoes_forward_witness :
  let w := mkWorld [mkApp "come" "gotthard" zeroQuota] [] in
  insertApp_Backward
    {| action.FWResult :=
         VAppPtr (withUnits (withQuota conviction quota.Unlimited)
                    [emptyUnit]);
       action.BWParams := action.Params convictionCtx |}
    (insertApp_Forward convictionCtx w).2
  = Some w.
Proof.
  intros w.
  apply (insertApp_backward_undoes_forward convictionCtx w
           (VAppPtr (withUnits (withQuota conviction quota.Unlimited)
                       [emptyUnit]))
           (insertApp_Forward convictionCtx w).2).
  reflexivity.
Defined.

(** X4: when the insertion fails for another reason than a duplicate
    name, [insertApp.Forward] returns the error of the database together
    with a result that is not nil - the app it tried to insert - and
    stores nothing. *)
Theorem insertApp_insert_failure p0 app rest prev w err :
  asApp p0 = Some app ->
  db.Conn w = None ->
  apps w !! Name app = None ->
  insertErr w = Some err ->
  exists a,
    insertApp_Forward
      {| action.Previous := prev; action.Params := p0 :: rest |} w
    = (action.Return (VAppPtr a) (Some err), w)
    /\ Name a = Name app
    /\ Units a = Units app ++ [emptyUnit].
Proof.
  intros Happ Hconn Hfree Herr. unfold insertApp_Forward, db.AppsInsert.
  apply asApp_Some in Happ as [-> | ->]; cbn -[config.GetInt];
    rewrite Hconn; destruct (config.GetInt _ w); cbn;
    rewrite Hfree, Herr; eexists; repeat split.
Qed.

Lemma insertApp_insert_failure_witness :
  let err := ExternalFailure "connection reset" in
  let w := withInsertErr (mkWorld [] []) err in
  exists a,
    insertApp_Forward convictionCtx w
    = (action.Return (VAppPtr a) (Some err), w)
    /\ Name a = Name conviction
    /\ Units a = Units conviction ++ [emptyUnit].
Proof.
  intros err w.
  apply (insertApp_insert_failure (VApp conviction) conviction [] VNil w err);
    reflexivity.
Defined.

(** X5: whatever [insertApp.Forward] is given and whatever it returns,
    every app that was stored before is stored unchanged after it - an
    insertion never overwrites or removes a record -, a store keyed by
    name stays keyed by name, and the users and the log of the calls are
    left alone. *)
Theorem insertApp_keeps_records ctx w out w' :
  insertApp_Forward ctx w = (out, w') ->
  (forall k a, apps w !! k = Some a -> apps w' !! k = Some a)
  /\ (keyedByName (apps w) -> keyedByName (apps w'))
  /\ users w' = users w
  /\ log w' = log w.
Proof.
  intros Hfw.
  apply insertApp_Forward_inv in Hfw as [[-> _]|(a & Hfree & _ & _ & ->)].
  - repeat split; auto.
  - simpl. repeat split.
    + intros k b Hk. rewrite lookup_insert_ne; [exact Hk|].
      intros <-. rewrite Hfree in Hk. discriminate.
    + intros Hkeyed k b. rewrite lookup_insert.
      case_decide as Hk; [intros [= <-]; exact Hk | apply Hkeyed].
Qed.

Lemma insertApp_keeps_records_witness :
  let come := mkApp "come" "gotthard" zeroQuota in
  let w := mkWorld [come] [] in
  let w' := (insertApp_Forward convictionCtx w).2 in
  (forall k a, apps w !! k = Some a -> apps w' !! k = Some a)
  /\ (keyedByName (apps w) -> keyedByName (apps w'))
  /\ users w' = users w
  /\ log w' = log w.
Proof.
  intros come w w'.
  apply (insertApp_keeps_records convictionCtx w
           (insertApp_Forward convictionCtx w).1 w').
  reflexivity.
Defined.

(** ** Reserving and releasing, one caller alone *)

Section LedgerRoundTrip.
Context {A : Type} {OA : Owner A}.

(** The quota is a field of the owner. *)
Hypothesis quotaOf_setQuota : forall (a : A) q, quotaOf (setQuota a q) = q.
Hypothesis setQuota_setQuota :
  forall (a : A) q q', setQuota (setQuota a q) q' = setQuota a q'.
Hypothesis setQuota_quotaOf : forall a : A, setQuota a (quotaOf a) = a.

Variables (notFound : error) (name : string).

(** A reservation that succeeds needed two accesses and stored the units
    in use increased by the amount. *)
Lemma run_reserve_success fuel amount (s s' : gmap string A) a tr :
  s !! name = Some a ->
  ledger.run fuel notFound ledger.Reserve name amount ledger.Start s
  = Some (None, s', tr) ->
  (2 <= fuel)%nat
  /\ s' = <[name := ledger.setInUse a (quota.InUse (quotaOf a) + amount)]> s.
Proof.
  intros Hs Hrun. destruct fuel as [|[|k]].
  - discriminate.
  - simpl in Hrun. rewrite Hs in Hrun. discriminate.
  - split; [lia|].
    destruct (quota.IsUnlimited (quotaOf a)) eqn:Hunl.
    + rewrite (run_reserve_unlimited notFound name k amount s a Hs Hunl)
        in Hrun.
      injection Hrun as <- _. reflexivity.
    + destruct (Z_lt_le_dec
                  (quota.Limit (quotaOf a) - quota.InUse (quotaOf a)) amount)
        as [Hlt|Hle].
      * rewrite (run_reserve_exceeded notFound name k amount s a Hs Hunl Hlt)
          in Hrun.
        discriminate.
      * rewrite (run_reserve_ok notFound name k amount s a Hs Hunl Hle)
          in Hrun.
        injection Hrun as <- _. reflexivity.
Qed.

(** Releasing the amount that was just reserved gives back the store. *)
Lemma run_release_reserved fuel notFound' amount (s : gmap string A) a :
  s !! name = Some a ->
  0 <= quota.InUse (quotaOf a) ->
  ledger.run (S (S fuel)) notFound' ledger.Release name amount ledger.Start
    (<[name := ledger.setInUse a (quota.InUse (quotaOf a) + amount)]> s)
  = Some (None, s, [ledger.Find; ledger.ConditionalUpdate true]).
Proof.
  intros Hs Hpos.
  set (a' := ledger.setInUse a (quota.InUse (quotaOf a) + amount)).
  assert (quota.InUse (quotaOf a') = quota.InUse (quotaOf a) + amount) as Hu.
  { unfold a', ledger.setInUse. rewrite quotaOf_setQuota. reflexivity. }
  rewrite (run_release_ok notFound' name fuel amount _ a'
             (lookup_insert_eq s name a')); [|lia].
  rewrite insert_insert_eq, Hu.
  replace (ledger.setInUse a' (quota.InUse (quotaOf a) + amount - amount))
    with a; [rewrite (insert_id _ _ _ Hs); reflexivity|].
  unfold a', ledger.setInUse. rewrite quotaOf_setQuota, setQuota_setQuota.
  rewrite <- (setQuota_quotaOf a) at 1. f_equal.
  destruct (quotaOf a) as [l u]. unfold quota.withInUse. simpl. f_equal. lia.
Qed.

End LedgerRoundTrip.

Lemma app_quotaOf_setQuota (a : App) q : quotaOf (setQuota a q) = q.
Proof. reflexivity. Qed.

Lemma app_setQuota_setQuota (a : App) q q' :
  setQuota (setQuota a q) q' = setQuota a q'.
Proof. reflexivity. Qed.

Lemma app_setQuota_quotaOf (a : App) : setQuota a (quotaOf a) = a.
Proof. destruct a. reflexivity. Qed.

Lemma user_quotaOf_setQuota (u : auth.User) q : quotaOf (setQuota u q) = q.
Proof. reflexivity. Qed.

Lemma user_setQuota_setQuota (u : auth.User) q q' :
  setQuota (setQuota u q) q' = setQuota u q'.
Proof. reflexivity. Qed.

Lemma user_setQuota_quotaOf (u : auth.User) : setQuota u (quotaOf u) = u.
Proof. destruct u. reflexivity. Qed.

Lemma withUsers_same w : withUsers w (users w) = w.
Proof. destruct w; reflexivity. Qed.

(** ** [reserveUnitsToAdd], forward and backward *)

(** Once the parameters have the right types, the database answers and
    the app is stored, the forward is the reservation. *)
Lemma reserveUnitsToAdd_Forward_stored fuel p0 app p1 n rest prev w stored :
  asApp p0 = Some app ->
  asInt p1 = Some n ->
  db.Conn w = None ->
  apps w !! Name app = Some stored ->
  reserveUnitsToAdd_Forward fuel
    {| action.Previous := prev; action.Params := p0 :: p1 :: rest |} w
  = match reserveUnits fuel stored n w with
    | None => (action.Diverge, w)
    | Some (Some err, w') => (action.Return VNil (Some err), w')
    | Some (None, w') => (action.Return (VInt n) None, w')
    end.
Proof.
  intros Happ Hn Hconn Hs.
  apply asApp_Some in Happ as [-> | ->];
    destruct p1; simpl in Hn; try discriminate; injection Hn as <-;
    cbn -[reserveUnits]; unfold App_Get, db.AppsFind;
    rewrite Hconn, Hs; reflexivity.
Qed.

(** X6: when the quota of the app is limited and the units asked for do
    not fit in what is left of it, [reserveUnitsToAdd.Forward] returns a
    nil result and a [QuotaExceededError] that carries the units
    requested and the units available, and leaves the world as it is. *)
Theorem reserveUnitsToAdd_quota_exceeded
    fuel p0 app p1 n rest prev w stored :
  (2 <= fuel)%nat ->
  asApp p0 = Some app ->
  asInt p1 = Some n ->
  db.Conn w = None ->
  keyedByName (apps w) ->
  apps w !! Name app = Some stored ->
  quota.IsUnlimited (Quota stored) = false ->
  quota.Limit (Quota stored) - quota.InUse (Quota stored) < n ->
  reserveUnitsToAdd_Forward fuel
    {| action.Previous := prev; action.Params := p0 :: p1 :: rest |} w
  = (action.Return VNil
       (Some (QuotaExceededError n
                (quota.Limit (Quota stored) - quota.InUse (Quota stored)))),
     w).
Proof.
  intros [k ->]%fuel_two Happ Hn Hconn Hkeyed Hs Hunl Hlt.
  rewrite (reserveUnitsToAdd_Forward_stored _ _ _ _ _ _ _ _ _
             Happ Hn Hconn Hs).
  unfold reserveUnits. rewrite (Hkeyed _ _ Hs).
  rewrite (run_reserve_exceeded (OA := app_owner) ErrAppNotFound (Name app)
             k n (apps w) stored Hs Hunl Hlt).
  rewrite withApps_same. reflexivity.
Qed.

Lemma reserveUnitsToAdd_quota_exceeded_witness :
  let w := mkWorld [visionsFull] [] in
  reserveUnitsToAdd_Forward 2
    {| action.Previous := VNil;
       action.Params := [VApp visionsFull; VInt 1] |} w
  = (action.Return VNil (Some (QuotaExceededError 1 (1 - 1))), w).
Proof.
  intros w.
  apply (reserveUnitsToAdd_quota_exceeded 2 (VApp visionsFull) visionsFull
           (VInt 1) 1 [] VNil w visionsFull); try reflexivity; try lia.
  intros k a Hk. unfold w, mkWorld in Hk. simpl in Hk.
  apply lookup_insert_Some in Hk as [[<- <-]|[_ Hk]]; [reflexivity|].
  rewrite lookup_empty in Hk. discriminate.
Defined.

(** X7: when the quota of the app is unlimited, or limited with room
    for the units asked for, [reserveUnitsToAdd.Forward] returns the
    number of units as an [int] - also when it was given as a [uint] -
    and stores the units in use increased by that number; nothing else
    in the world changes. *)
Theorem reserveUnitsToAdd_reserves fuel p0 app p1 n rest prev w stored :
  (2 <= fuel)%nat ->
  asApp p0 = Some app ->
  asInt p1 = Some n ->
  db.Conn w = None ->
  keyedByName (apps w) ->
  apps w !! Name app = Some stored ->
  quota.IsUnlimited (Quota stored) = true
  \/ n <= quota.Limit (Quota stored) - quota.InUse (Quota stored) ->
  reserveUnitsToAdd_Forward fuel
    {| action.Previous := prev; action.Params := p0 :: p1 :: rest |} w
  = (action.Return (VInt n) None,
     withApps w
       (<[Name app :=
            withQuota stored
              (quota.withInUse (Quota stored)
                 (quota.InUse (Quota stored) + n))]> (apps w))).
Proof.
  intros [k ->]%fuel_two Happ Hn Hconn Hkeyed Hs Hroom.
  rewrite (reserveUnitsToAdd_Forward_stored _ _ _ _ _ _ _ _ _
             Happ Hn Hconn Hs).
  unfold reserveUnits. rewrite (Hkeyed _ _ Hs).
  destruct (quota.IsUnlimited (Quota stored)) eqn:Hunl.
  - rewrite (run_reserve_unlimited (OA := app_owner) ErrAppNotFound
               (Name app) k n (apps w) stored Hs Hunl).
    reflexivity.
  - destruct Hroom as [|Hle]; [discriminate|].
    rewrite (run_reserve_ok (OA := app_owner) ErrAppNotFound (Name app)
               k n (apps w) stored Hs Hunl Hle).
    reflexivity.
Qed.

Lemma mkWorld_keyedByName storedApps storedUsers :
  keyedByName (apps (mkWorld storedApps storedUsers)).
Proof.
  unfold mkWorld. simpl. induction storedApps as [|a l IH]; intros k b; simpl.
  - rewrite lookup_empty. discriminate.
  - rewrite lookup_insert. case_decide as Hk; [intros [= <-]; exact Hk|].
    apply IH.
Qed.

Lemma mkWorld_keyedByEmail storedApps storedUsers :
  keyedByEmail (users (mkWorld storedApps storedUsers)).
Proof.
  unfold mkWorld. simpl. induction storedUsers as [|u l IH]; intros k b; simpl.
  - rewrite lookup_empty. discriminate.
  - rewrite lookup_insert. case_decide as Hk; [intros [= <-]; exact Hk|].
    apply IH.
Qed.

Lemma reserveUnitsToAdd_reserves_witness :
  let w := mkWorld [visionsRoom] [] in
  reserveUnitsToAdd_Forward 2
    {| action.Previous := VNil;
       action.Params := [VAppPtr visionsRoom; VUint 3] |} w
  = (action.Return (VInt 3) None,
     withApps w
       (<[Name visionsRoom :=
            withQuota visionsRoom
              (quota.withInUse (Quota visionsRoom)
                 (quota.InUse (Quota visionsRoom) + 3))]> (apps w))).
Proof.
  intros w.
  apply (reserveUnitsToAdd_reserves 2 (VAppPtr visionsRoom) visionsRoom
           (VUint 3) 3 [] VNil w visionsRoom); try reflexivity; try lia.
  - apply mkWorld_keyedByName.
  - right. simpl. lia.
Defined.

(** What a forward of [reserveUnitsToAdd] that succeeded did. *)
Lemma reserveUnitsToAdd_Forward_success fuel ctx w r w' :
  reserveUnitsToAdd_Forward fuel ctx w = (action.Return r None, w') ->
  exists p0 app p1 n stored,
    action.Params ctx !! 0%nat = Some p0 /\ asApp p0 = Some app
    /\ action.Params ctx !! 1%nat = Some p1 /\ asInt p1 = Some n
    /\ db.Conn w = None
    /\ apps w !! Name app = Some stored
    /\ reserveUnits fuel stored n w = Some (None, w')
    /\ r = VInt n.
Proof.
  unfold reserveUnitsToAdd_Forward, App_Get, db.AppsFind. intros Hfw.
  destruct (action.Params ctx !! 0%nat) as [p0|]; [|discriminate].
  destruct (action.Params ctx !! 1%nat) as [p1|];
    [|destruct p0; discriminate].
  destruct p0; try discriminate; destruct p1; try discriminate;
    (destruct (db.Conn w); [discriminate|]);
    match type of Hfw with
    | context [apps w !! ?k] =>
        destruct (apps w !! k) as [stored|] eqn:Hs; [|discriminate]
    end;
    match type of Hfw with
    | context [reserveUnits fuel ?a ?n w] =>
        destruct (reserveUnits fuel a n w) as [[[err|] w1]|] eqn:Hres;
        try discriminate
    end;
    injection Hfw as <- <-;
    eexists _, _, _, _, _; repeat split; try reflexivity; eassumption.
Qed.

(** The backward after a reservation of [n] units for the stored app. *)
Lemma reserveUnitsToAdd_Backward_reserved k p0 app n rest w stored :
  asApp p0 = Some app ->
  apps w !! Name app = Some stored ->
  0 <= quota.InUse (Quota stored) ->
  reserveUnitsToAdd_Backward (S (S k))
    {| action.FWResult := VInt n; action.BWParams := p0 :: rest |}
    (withApps w
       (<[Name app :=
            ledger.setInUse stored (quota.InUse (Quota stored) + n)]>
          (apps w)))
  = Some w.
Proof.
  intros Happ Hs Hpos. unfold reserveUnitsToAdd_Backward, releaseUnits.
  cbn [action.FWResult action.BWParams apps withApps lookup list_lookup].
  change (Quota stored) with (quotaOf stored) in *.
  apply asApp_Some in Happ as [-> | ->]; cbv beta iota zeta;
    rewrite (run_release_reserved (OA := app_owner) app_quotaOf_setQuota
               app_setQuota_setQuota app_setQuota_quotaOf (Name app) k
               ErrAppNotFound n (apps w) stored Hs Hpos);
    rewrite withApps_withApps, withApps_same; reflexivity.
Qed.

(** X8: the backward of [reserveUnitsToAdd] undoes its forward: in a
    store keyed by name whose units in use are not negative, after a
    forward that succeeded the backward called with the same parameters
    and the result of that forward releases what was reserved and gives
    back the world in which the forward started. *)
Theorem reserveUnitsToAdd_backward_undoes_forward fuel ctx w r w' :
  keyedByName (apps w) ->
  inUseNonNegative (apps w) ->
  reserveUnitsToAdd_Forward fuel ctx w = (action.Return r None, w') ->
  reserveUnitsToAdd_Backward fuel
    {| action.FWResult := r; action.BWParams := action.Params ctx |} w'
  = Some w.
Proof.
  intros Hkeyed Hpos Hfw.
  apply reserveUnitsToAdd_Forward_success in Hfw
    as (p0 & app & p1 & n & stored & Hp0 & Happ & _ & _ & _ & Hs & Hres & ->).
  unfold reserveUnits in Hres. rewrite (Hkeyed _ _ Hs) in Hres.
  destruct (ledger.run fuel ErrAppNotFound ledger.Reserve (Name app) n
              ledger.Start (apps w)) as [[[err s'] tr]|] eqn:Hrun;
    [|discriminate].
  injection Hres as -> <-.
  destruct (run_reserve_success (OA := app_owner) ErrAppNotFound (Name app)
              fuel n (apps w) s' stored tr Hs Hrun) as [[k ->]%fuel_two ->].
  destruct (action.Params ctx) as [|p0' rest]; [discriminate|].
  injection Hp0 as ->.
  exact (reserveUnitsToAdd_Backward_reserved k p0 app n rest w stored
           Happ Hs (Hpos _ _ Hs)).
Qed.

Lemma reserveUnitsToAdd_backward_undoes_forward_witness :
  let w := mkWorld [visionsRoom] [] in
  let ctx := {| action.Previous := VNil;
                action.Params := [VAppPtr visionsRoom; VInt 3] |} in
  reserveUnitsToAdd_Backward 2
    {| action.FWResult := VInt 3; action.BWParams := action.Params ctx |}
    (reserveUnitsToAdd_Forward 2 ctx w).2
  = Some w.
Proof.
  intros w ctx.
  apply (reserveUnitsToAdd_backward_undoes_forward 2 ctx w (VInt 3)
           (reserveUnitsToAdd_Forward 2 ctx w).2).
  - apply mkWorld_keyedByName.
  - intros k a Hk. unfold w, mkWorld in Hk. simpl in Hk.
    apply lookup_insert_Some in Hk as [[_ <-]|[_ Hk]]; [simpl; lia|].
    rewrite lookup_empty in Hk. discriminate.
  - reflexivity.
Defined.

(** ** [reserveUserApp], forward and backward *)

(** What a forward of [reserveUserApp] that reached the ledger did. *)
Lemma reserveUserApp_Forward_stored fuel p0 app p1 user rest prev w usr :
  asApp p0 = Some app ->
  asUser p1 = Some user ->
  db.Conn w = None ->
  users w !! auth.Email user = Some usr ->
  reserveUserApp_Forward fuel
    {| action.Previous := prev; action.Params := p0 :: p1 :: rest |} w
  = match ReserveApp fuel usr w with
    | None => (action.Diverge, w)
    | Some (Some err, w') => (action.Return VNil (Some err), w')
    | Some (None, w') =>
        (action.Return
           (VStringMap
              (<["user" := auth.Email user]> (<["app" := Name app]> ∅)))
           None, w')
    end.
Proof.
  intros Happ Huser Hconn Hs.
  apply asApp_Some in Happ as [-> | ->];
    destruct p1; simpl in Huser; try discriminate; injection Huser as <-;
    cbn -[ReserveApp]; unfold GetUserByEmail; rewrite Hconn, Hs;
    reflexivity.
Qed.

Lemma reserveUserApp_Forward_success fuel ctx w r w' :
  reserveUserApp_Forward fuel ctx w = (action.Return r None, w') ->
  exists p0 app p1 user usr,
    action.Params ctx !! 0%nat = Some p0 /\ asApp p0 = Some app
    /\ action.Params ctx !! 1%nat = Some p1 /\ asUser p1 = Some user
    /\ db.Conn w = None
    /\ users w !! auth.Email user = Some usr
    /\ ReserveApp fuel usr w = Some (None, w')
    /\ r = VStringMap
             (<["user" := auth.Email user]> (<["app" := Name app]> ∅)).
Proof.
  unfold reserveUserApp_Forward, GetUserByEmail. intros Hfw.
  destruct (action.Params ctx !! 0%nat) as [p0|]; [|discriminate].
  destruct (action.Params ctx !! 1%nat) as [p1|];
    [|destruct p0; discriminate].
  destruct p0; try discriminate; destruct p1; try discriminate;
    (destruct (db.Conn w); [discriminate|]);
    match type of Hfw with
    | context [users w !! ?k] =>
        destruct (users w !! k) as [usr|] eqn:Hs; [|discriminate]
    end;
    match type of Hfw with
    | context [ReserveApp fuel ?u w] =>
        destruct (ReserveApp fuel u w) as [[[err|] w1]|] eqn:Hres;
        try discriminate
    end;
    injection Hfw as <- <-;
    eexists _, _, _, _, _; repeat split; try reflexivity; eassumption.
Qed.

(** The backward after the reservation of one app for the stored user. *)
Lemma reserveUserApp_Backward_reserved k email appName params w usr :
  db.Conn w = None ->
  users w !! email = Some usr ->
  auth.Email usr = email ->
  0 <= quota.InUse (auth.Quota usr) ->
  reserveUserApp_Backward (S (S k))
    {| action.FWResult :=
         VStringMap (<["user" := email]> (<["app" := appName]> ∅));
       action.BWParams := params |}
    (withUsers w
       (<[email := ledger.setInUse usr (quota.InUse (auth.Quota usr) + 1)]>
          (users w)))
  = Some w.
Proof.
  intros Hconn Hs Hemail Hpos.
  unfold reserveUserApp_Backward, GetUserByEmail, ReleaseApp, db.Conn in *.
  cbn [action.FWResult action.BWParams users withUsers dbConnErr].
  rewrite !lookup_insert_eq. cbn [default from_option id].
  rewrite Hconn, ?lookup_insert_eq.
  change (auth.Quota usr) with (quotaOf usr) in *.
  change (auth.Email (ledger.setInUse usr (quota.InUse (quotaOf usr) + 1)))
    with (auth.Email usr).
  rewrite Hemail.
  rewrite (run_release_reserved (OA := user_owner) user_quotaOf_setQuota
             user_setQuota_setQuota user_setQuota_quotaOf email k
             auth.ErrUserNotFound 1 (users w) usr Hs Hpos).
  destruct w; reflexivity.
Qed.

(** X9: the backward of [reserveUserApp] undoes its forward: in a
    collection of users keyed by e-mail whose apps in use are not
    negative, after a forward that succeeded the backward called with
    the result of that forward finds the user again, releases the app
    that was reserved and gives back the world in which the forward
    started. *)
Theorem reserveUserApp_backward_undoes_forward fuel ctx w r w' :
  keyedByEmail (users w) ->
  inUseNonNegative (users w) ->
  reserveUserApp_Forward fuel ctx w = (action.Return r None, w') ->
  reserveUserApp_Backward fuel
    {| action.FWResult := r; action.BWParams := action.Params ctx |} w'
  = Some w.
Proof.
  intros Hkeyed Hpos Hfw.
  apply reserveUserApp_Forward_success in Hfw
    as (p0 & app & p1 & user & usr & _ & _ & _ & _ & Hconn & Hs & Hres & ->).
  unfold ReserveApp in Hres. rewrite (Hkeyed _ _ Hs) in Hres.
  destruct (ledger.run fuel auth.ErrUserNotFound ledger.Reserve
              (auth.Email user) 1 ledger.Start (users w))
    as [[[err s'] tr]|] eqn:Hrun; [|discriminate].
  injection Hres as -> <-.
  destruct (run_reserve_success (OA := user_owner) auth.ErrUserNotFound
              (auth.Email user) fuel 1 (users w) s' usr tr Hs Hrun)
    as [[k ->]%fuel_two ->].
  exact (reserveUserApp_Backward_reserved k (auth.Email user) (Name app)
           (action.Params ctx) w usr Hconn Hs (Hkeyed _ _ Hs) (Hpos _ _ Hs)).
Qed.

Lemma reserveUserApp_backward_undoes_forward_witness :
  let ctx := {| action.Previous := VNil; action.Params := clapParams |} in
  reserveUserApp_Backward 2
    {| action.FWResult :=
         VStringMap (<["user" := "clap@yes.com"]> (<["app" := "clap"]> ∅));
       action.BWParams := action.Params ctx |}
    (reserveUserApp_Forward 2 ctx clapWorld).2
  = Some clapWorld.
Proof.
  intros ctx.
  apply (reserveUserApp_backward_undoes_forward 2 ctx clapWorld
           (VStringMap (<["user" := "clap@yes.com"]> (<["app" := "clap"]> ∅)))
           (reserveUserApp_Forward 2 ctx clapWorld).2).
  - apply mkWorld_keyedByEmail.
  - intros k a Hk. unfold clapWorld, mkWorld in Hk. simpl in Hk.
    apply lookup_insert_Some in Hk as [[_ <-]|[_ Hk]]; [simpl; lia|].
    rewrite lookup_empty in Hk. discriminate.
  - reflexivity.
Defined.

(** ** [exportEnvironmentsAction]: what is exported *)

Lemma fold_left_snoc {A B : Type} (f : B -> A) (l : list B) (init : list A) :
  fold_left (fun acc x => acc ++ [f x]) l init = init ++ map f l.
Proof.
  revert init. induction l as [|x l IH]; intros init; simpl.
  - rewrite app_nil_r. reflexivity.
  - rewrite IH, <- app_assoc. reflexivity.
Qed.

Section ExportEnvironmentsValues.
Variable s3InstanceName : string.
Variable rangeMap : gmap string string -> list (string * string).

(** [range] visits every entry of the map once, in some order. *)
Hypothesis rangeMap_once : forall m, rangeMap m ≡ₚ map_to_list m.

(** The forward, once the app is found. *)
Lemma exportEnvironments_Forward_stored ctx app w stored :
  action.Params ctx !! 0%nat = Some (VAppPtr app) ->
  db.Conn w = None ->
  apps w !! Name app = Some stored ->
  exportEnvironments_Forward s3InstanceName rangeMap ctx w
  = let w1 := emit (EvCreateApplicationToken (Name stored)) w in
    match tokenErr w with
    | Some err => (action.Return VNil (Some err), w1)
    | None =>
        let envVars :=
          exportEnvironments_envVars s3InstanceName rangeMap stored
            (config.GetString "host" w) (nextToken w) (action.Previous ctx) in
        let w2 := emit (EvSetEnvsToApp (Name stored) envVars false true) w1 in
        match setEnvsErr w with
        | Some err => (action.Return VNil (Some err), w2)
        | None => (action.Return (action.Previous ctx) None, w2)
        end
    end.
Proof.
  intros Hp0 Hconn Hs.
  unfold exportEnvironments_Forward, App_Get, db.AppsFind,
    CreateApplicationToken, setEnvsToApp.
  rewrite Hp0, Hconn, Hs. cbv zeta.
  destruct (tokenErr w); [reflexivity|].
  change (setEnvsErr (emit _ w)) with (setEnvsErr w).
  destruct (setEnvsErr w); reflexivity.
Qed.

(** A forward that does not panic found a [*App] in [Params[0]]; if it
    went past the lookup of the app, the app is stored. *)
Lemma exportEnvironments_Forward_cases ctx w r err w' :
  exportEnvironments_Forward s3InstanceName rangeMap ctx w
  = (action.Return r err, w') ->
  exists app,
    action.Params ctx !! 0%nat = Some (VAppPtr app)
    /\ ((exists e, err = Some e /\ r = VNil /\ w' = w)
        \/ (exists stored,
              db.Conn w = None /\ apps w !! Name app = Some stored)).
Proof.
  unfold exportEnvironments_Forward, App_Get, db.AppsFind. intros Hfw.
  destruct (action.Params ctx !! 0%nat) as [p0|]; [|discriminate].
  destruct p0; try discriminate. exists a. split; [reflexivity|].
  destruct (db.Conn w) as [e|].
  { left. exists e. injection Hfw as <- <- <-. auto. }
  destruct (apps w !! Name a) as [stored|].
  - right. exists stored. auto.
  - left. eexists. injection Hfw as <- <- <-. auto.
Qed.

Lemma s3Variables_lookup env k v :
  (k, v) ∈ [("ENDPOINT", endpoint env);
            ("LOCATIONCONSTRAINT", FormatBool (locationConstraint env));
            ("ACCESS_KEY_ID", AccessKey env);
            ("SECRET_KEY", SecretKey env);
            ("BUCKET", bucket env)] ->
  s3EnvVar s3InstanceName (k, v)
  ∈ map (s3EnvVar s3InstanceName) (rangeMap (s3Variables env)).
Proof.
  intros Hin. apply list_elem_of_In, in_map, list_elem_of_In.
  rewrite (rangeMap_once (s3Variables env)).
  apply elem_of_map_to_list. unfold s3Variables.
  apply elem_of_list_to_map; [|exact Hin].
  apply (bool_decide_unpack _). vm_compute. reflexivity.
Qed.

(** X10: when [exportEnvironmentsAction.Forward] succeeds, the variables
    it sets on the stored app carry these values: [TSURU_APPNAME] the
    name of the app, [TSURU_HOST] the configured host and
    [TSURU_APP_TOKEN] the token just created, with no instance name;
    and, when the previous result is a [*s3Env], [TSURU_S3_ENDPOINT],
    [TSURU_S3_LOCATIONCONSTRAINT], [TSURU_S3_ACCESS_KEY_ID],
    [TSURU_S3_SECRET_KEY] and [TSURU_S3_BUCKET] the fields of that
    environment, under the instance name of S3. None of the variables is
    public and no name occurs twice. *)
Theorem exportEnvironments_values ctx w r w' :
  exportEnvironments_Forward s3InstanceName rangeMap ctx w
  = (action.Return r None, w') ->
  exists app stored envVars,
    action.Params ctx !! 0%nat = Some (VAppPtr app)
    /\ apps w !! Name app = Some stored
    /\ log w' = log w ++ [EvCreateApplicationToken (Name stored);
                          EvSetEnvsToApp (Name stored) envVars false true]
    /\ privateVar "TSURU_APPNAME" (Name stored) "" ∈ envVars
    /\ privateVar "TSURU_HOST" (config.GetString "host" w) "" ∈ envVars
    /\ privateVar "TSURU_APP_TOKEN" (nextToken w) "" ∈ envVars
    /\ (forall env, action.Previous ctx = VS3EnvPtr env ->
          privateVar "TSURU_S3_ENDPOINT" (endpoint env) s3InstanceName
          ∈ envVars
          /\ privateVar "TSURU_S3_LOCATIONCONSTRAINT"
               (if locationConstraint env then "true" else "false")
               s3InstanceName ∈ envVars
          /\ privateVar "TSURU_S3_ACCESS_KEY_ID" (AccessKey env)
               s3InstanceName ∈ envVars
          /\ privateVar "TSURU_S3_SECRET_KEY" (SecretKey env) s3InstanceName
             ∈ envVars
          /\ privateVar "TSURU_S3_BUCKET" (bucket env) s3InstanceName
             ∈ envVars)
    /\ Forall (fun v => bind.Public v = false) envVars
    /\ NoDup (map bind.Name envVars).
Proof.
  intros Hfw.
  destruct (exportEnvironments_Forward_cases _ _ _ _ _ Hfw)
    as (app & Hp0 & [(e & He & _)|(stored & Hconn & Hs)]); [discriminate|].
  rewrite (exportEnvironments_Forward_stored ctx app w stored Hp0 Hconn Hs)
    in Hfw.
  cbv zeta in Hfw. destruct (tokenErr w); [discriminate|].
  destruct (setEnvsErr w); [discriminate|]. injection Hfw as _ <-.
  exists app, stored. eexists. split; [exact Hp0|]. split; [exact Hs|].
  split; [apply log_emit_twice|].
  unfold exportEnvironments_envVars.
  destruct (action.Previous ctx) eqn:Hprev;
    try (repeat split; try (intros; discriminate);
         lazymatch goal with
         | |- _ ∈ _ => set_solver
         | |- Forall _ _ => repeat constructor
         | |- NoDup _ =>
             apply (bool_decide_unpack _); vm_compute; reflexivity
         end).
  rewrite fold_left_snoc. repeat split.
  1-3: set_solver.
  1-5: match goal with
       | H : VS3EnvPtr _ = VS3EnvPtr _ |- _ => injection H as <-
       end; apply elem_of_app; right.
  - apply (s3Variables_lookup e "ENDPOINT"). set_solver.
  - apply (s3Variables_lookup e "LOCATIONCONSTRAINT"). set_solver.
  - apply (s3Variables_lookup e "ACCESS_KEY_ID"). set_solver.
  - apply (s3Variables_lookup e "SECRET_KEY"). set_solver.
  - apply (s3Variables_lookup e "BUCKET"). set_solver.
  - apply Forall_app. split; [repeat constructor|].
    apply Forall_forall. intros v [entry [<- _]]%list_elem_of_In%in_map_iff.
    reflexivity.
  - rewrite map_app, map_map.
    change (map (fun x => bind.Name (s3EnvVar s3InstanceName x)))
      with (map (fun entry : string * string => "TSURU_S3_" +:+ entry.1)).
    rewrite (s3Variables_names rangeMap rangeMap_once e).
    apply (bool_decide_unpack _). vm_compute. reflexivity.
Qed.

End ExportEnvironmentsValues.

Lemma exportEnvironments_values_witness :
  let forward := exportEnvironments_Forward "tsurus3" map_to_list in
  let w := mistWorld in
  let w' := (forward mistCtx mistWorld).2 in
  exists app stored envVars,
    action.Params mistCtx !! 0%nat = Some (VAppPtr app)
    /\ apps w !! Name app = Some stored
    /\ log w' = log w ++ [EvCreateApplicationToken (Name stored);
                          EvSetEnvsToApp (Name stored) envVars false true]
    /\ privateVar "TSURU_APPNAME" (Name stored) "" ∈ envVars
    /\ privateVar "TSURU_HOST" (config.GetString "host" w) "" ∈ envVars
    /\ privateVar "TSURU_APP_TOKEN" (nextToken w) "" ∈ envVars
    /\ (forall env, action.Previous mistCtx = VS3EnvPtr env ->
          privateVar "TSURU_S3_ENDPOINT" (endpoint env) "tsurus3" ∈ envVars
          /\ privateVar "TSURU_S3_LOCATIONCONSTRAINT"
               (if locationConstraint env then "true" else "false")
               "tsurus3" ∈ envVars
          /\ privateVar "TSURU_S3_ACCESS_KEY_ID" (AccessKey env) "tsurus3"
             ∈ envVars
          /\ privateVar "TSURU_S3_SECRET_KEY" (SecretKey env) "tsurus3"
             ∈ envVars
          /\ privateVar "TSURU_S3_BUCKET" (bucket env) "tsurus3" ∈ envVars)
    /\ Forall (fun v => bind.Public v = false) envVars
    /\ NoDup (map bind.Name envVars).
Proof.
  intros forward w w'.
  apply (exportEnvironments_values "tsurus3" map_to_list
           (fun m => reflexivity (map_to_list m))
           mistCtx w (VS3EnvPtr mistEnv) w').
  reflexivity.
Defined.

(** ** [exportEnvironmentsAction]: when it fails *)



(** ** [saveNewUnitsInDatabase]: when the app is gone *)

(** X12: when the database cannot be reached, [saveNewUnitsInDatabase.
    Forward] returns the error of the connection, and when the app is not
    stored it returns [ErrAppNotFound]; in both cases the result is nil
    and the world is left as it is: no unit is saved, nothing is
    enqueued. *)
Theorem saveNewUnits_app_not_found
    (AddUnit : App -> Unit -> App)
    (StatusBuilding_String RegenerateApprcAndStart BindService : string)
    p0 app units rest w :
  asApp p0 = Some app ->
  db.Conn w <> None \/ apps w !! Name app = None ->
  saveNewUnitsInDatabase_Forward AddUnit StatusBuilding_String
    RegenerateApprcAndStart BindService
    {| action.Previous := VAddUnitsResultPtr units;
       action.Params := p0 :: rest |} w
  = (action.Return VNil
       (Some (match db.Conn w with
              | Some err => err
              | None => ErrAppNotFound
              end)),
     w).
Proof.
  intros Happ Hgone. unfold saveNewUnitsInDatabase_Forward, App_Get, db.AppsFind.
  apply asApp_Some in Happ as [-> | ->]; cbn [action.Params action.Previous];
    simpl lookup; cbv beta iota;
    (destruct (db.Conn w); [reflexivity|]);
    (destruct Hgone as [Hconn|Habsent]; [contradiction|]);
    rewrite Habsent; reflexivity.
Qed.

Lemma saveNewUnits_app_not_found_witness :
  let w := mkWorld [] [] in
  saveNewUnitsInDatabase_Forward appendUnit "building"
    "regenerate-apprc-start-app" "bind-service"
    {| action.Previous := VAddUnitsResultPtr [];
       action.Params := [VApp (mkApp "something" "" zeroQuota)] |} w
  = (action.Return VNil
       (Some (match db.Conn w with
              | Some err => err
              | None => ErrAppNotFound
              end)),
     w).
Proof.
  intros w.
  apply (saveNewUnits_app_not_found appendUnit "building"
           "regenerate-apprc-start-app" "bind-service"
           (VApp (mkApp "something" "" zeroQuota))
           (mkApp "something" "" zeroQuota) [] [] w); [reflexivity|].
  right. reflexivity.
Defined.

(** ** The number of units, from [reserveUnitsToAdd] to the provisioner *)

Lemma uint_of_int_of_uint u :
  0 <= u < 2 ^ 64 -> uint_of_int (int_of_uint u) = u.
Proof.
  intros Hu. unfold uint_of_int, int_of_uint.
  destruct (Z.ltb_spec u (2 ^ 63)).
  - destruct (Z.ltb_spec u 0); lia.
  - destruct (Z.ltb_spec (u - 2 ^ 64) 0); lia.
Qed.

(** X13: the number of units given to [reserveUnitsToAdd] as a [uint]
    reaches the provisioner unchanged: [provisionAddUnits.Forward], fed
    with the [int] that [reserveUnitsToAdd] made of it, converts it back
    and asks the provisioner for exactly that many units, returns the
    units the provisioner added, or a nil result and its error. *)
Theorem provisionAddUnits_asks_for_the_units
    (AddUnits : App -> Z -> World -> (list provision.Unit + error) * World)
    p0 app u rest w :
  asApp p0 = Some app ->
  0 <= u < 2 ^ 64 ->
  asInt (VUint u) = Some (int_of_uint u)
  /\ provisionAddUnits_Forward AddUnits
       {| action.Previous := VInt (int_of_uint u);
          action.Params := p0 :: rest |} w
     = match AddUnits app u w with
       | (inr err, w') => (action.Return VNil (Some err), w')
       | (inl units, w') =>
           (action.Return (VAddUnitsResultPtr units) None, w')
       end.
Proof.
  intros Happ Hu. split; [reflexivity|].
  unfold provisionAddUnits_Forward.
  apply asApp_Some in Happ as [-> | ->]; cbn [action.Params action.Previous];
    simpl lookup; cbv beta iota; rewrite (uint_of_int_of_uint u Hu);
    reflexivity.
Qed.

Lemma provisionAddUnits_asks_for_the_units_witness :
  let AddUnits := fun (a : App) (n : Z) (w : World) =>
    (inl [visionsUnit "1"] : list provision.Unit + error, w) in
  let u := 2 ^ 63 + 3 in
  asInt (VUint u) = Some (int_of_uint u)
  /\ provisionAddUnits_Forward AddUnits
       {| action.Previous := VInt (int_of_uint u);
          action.Params := [VApp visions] |} (mkWorld [] [])
     = match AddUnits visions u (mkWorld [] []) with
       | (inr err, w') => (action.Return VNil (Some err), w')
       | (inl units, w') =>
           (action.Return (VAddUnitsResultPtr units) None, w')
       end.
Proof.
  intros AddUnits u.
  apply (provisionAddUnits_asks_for_the_units AddUnits (VApp visions) visions
           u [] (mkWorld [] [])); [reflexivity | unfold u; lia].
Defined.

(** * Further properties of the ledger *)

(** ** Any number of callers of one operation *)

Section UniformCallers.
Variables (o : ledger.op) (name : string) (amount : Z) (a0 : App) (n : nat).

Hypothesis amount_positive : 0 < amount.
Hypothesis room_at_start : 0 <= roomFor o (Quota a0).
Hypothesis limited :
  o = ledger.Reserve -> quota.IsUnlimited (Quota a0) = false.

Local Abbreviation step' := (ledger.sys_step ErrAppNotFound o name amount).
Local Abbreviation inv' := (uniformInv o name amount a0 n).
Local Abbreviation ok' :=
  (uniformOk o amount (quota.Limit (Quota a0)) (roomFor o (Quota a0))).

(** The decision of a caller on the snapshot it holds. *)
Lemma step_read (q : quota.Quota) (s : gmap string App) :
  quota.Limit q = quota.Limit (Quota a0) ->
  ledger.step ErrAppNotFound o name amount (ledger.Read q) s
  = Some (if amount >? roomFor o q
          then (ledger.Rejected,
                ledger.Finished (Some (refusal o amount (roomFor o q))), s)
          else ledger.commit name q (inUseAfter o (quota.InUse q) amount) s).
Proof.
  intros Hl. destruct o; simpl.
  - unfold quota.IsUnlimited. rewrite Hl.
    specialize (limited eq_refl). unfold quota.IsUnlimited in limited.
    rewrite limited.
    destruct (amount >? quota.Limit (Quota a0) - quota.InUse q); reflexivity.
  - destruct (amount >? quota.InUse q); reflexivity.
Qed.

Lemma roomFor_inUseAfter (q' q : quota.Quota) :
  quota.Limit q = quota.Limit q' ->
  roomFor o (quota.withInUse q' (inUseAfter o (quota.InUse q) amount))
  = roomFor o q - amount.
Proof. intros Hl. destruct o; simpl; lia. Qed.

Lemma uniformOk_less room room' p :
  room' <= room -> amount <= room -> ok' room p -> ok' room' p.
Proof.
  intros Hle Hroom. destruct p as [|q|[e|]]; simpl; try tauto.
  - intros (Hl & Hr & Hk). repeat split; try lia. exact Hk.
  - intros [_ Hlt]. lia.
Qed.

Lemma uniformInv_init (s0 : gmap string App) :
  s0 !! name = Some a0 -> inv' (uniformInit s0 n).
Proof.
  intros Hs. exists a0. simpl. repeat split; try assumption.
  - unfold count. induction n as [|k IH]; simpl; lia.
  - apply length_replicate.
  - apply Forall_replicate. exact I.
Qed.

Lemma uniformInv_step sys sys' : inv' sys -> step' sys sys' -> inv' sys'.
Proof.
  intros (a & Hs & Hlim & Hroom & Hpos & Hlen & Hall) Hstep.
  destruct Hstep as [i p acc p' s' [s c] Hi Hp]. simpl in *.
  pose proof (Forall_lookup_1 _ _ _ _ Hall Hi) as Hok.
  pose proof (count_nonneg ledger.succeeded c) as Hc.
  unfold uniformInv. simpl ledger.store. simpl ledger.callers.
  destruct p as [|q|e].
  - (* the caller reads the app *)
    simpl in Hp. rewrite Hs in Hp. injection Hp as <- <- <-.
    exists a. unfold count in *. rewrite (sumZ_insert _ c i _ _ Hi). simpl.
    rewrite length_insert. repeat split; try assumption; try lia.
    apply Forall_insert; [exact Hall|]. simpl. repeat split; try lia.
    eexists. exact Hroom.
  - (* the caller decides on its snapshot *)
    destruct Hok as (Hql & Hqr & k & Hk).
    rewrite (step_read q s Hql) in Hp.
    destruct (Z.gtb_spec amount (roomFor o q)) as [Hfull|Hfits].
    + (* not enough left: the caller is refused *)
      injection Hp as <- <- <-.
      exists a. unfold count in *. rewrite (sumZ_insert _ c i _ _ Hi). simpl.
      rewrite length_insert. repeat split; try assumption; try lia.
      apply Forall_insert; [exact Hall|]. simpl. split; [|lia].
      f_equal. apply (Z.mod_unique _ _ k); lia.
    + unfold ledger.commit, ledger.conditionalUpdate in Hp.
      rewrite Hs in Hp. case_decide as Hcas.
      * (* the conditional update goes through *)
        injection Hp as <- <- <-.
        assert (roomFor o q = roomFor o (Quota a)) as Hsame.
        { simpl in Hcas. destruct o; simpl; lia. }
        eexists. rewrite lookup_insert_eq. split; [reflexivity|].
        cbn [Quota withQuota]. rewrite !(roomFor_inUseAfter (Quota a) q) by lia.
        unfold count in *. rewrite (sumZ_insert _ c i _ _ Hi). simpl.
        rewrite length_insert. repeat split; try assumption; try lia.
        apply Forall_insert; [|exact I].
        eapply Forall_impl; [exact Hall|]. intros p.
        apply uniformOk_less; lia.
      * (* another caller was faster: start again *)
        injection Hp as <- <- <-.
        exists a. unfold count in *. rewrite (sumZ_insert _ c i _ _ Hi).
        simpl. rewrite length_insert.
        repeat split; try assumption; try lia.
        apply Forall_insert; [exact Hall | exact I].
  - discriminate.
Qed.

Lemma uniformInv_reachable (s0 : gmap string App) sys :
  s0 !! name = Some a0 ->
  rtc step' (uniformInit s0 n) sys -> inv' sys.
Proof.
  intros Hs. revert sys. apply (rtc_ind_r inv' (uniformInit s0 n)).
  - exact (uniformInv_init s0 Hs).
  - intros mid sys _ Hstep IH. exact (uniformInv_step mid sys IH Hstep).
Qed.

(** X14: [n] callers of the same operation - all reserve, or all
    release, the same positive amount - on one app, their accesses to
    the store interleaved in any order. When all of them have returned,
    as many have succeeded as the amount fits in what was left at the
    start (the free units for reservations, the units in use for
    releases), and at most [n]; the units in use have grown, or shrunk,
    by the amount for each of them; every other caller was refused, a
    reservation with [QuotaExceeded] for the amount and the remainder.
    The limit is untouched. *)
Theorem uniform_callers_final (s0 : gmap string App) sys :
  s0 !! name = Some a0 ->
  rtc step' (uniformInit s0 n) sys ->
  ledger.all_finished sys = true ->
  let room0 := roomFor o (Quota a0) in
  let winners := Z.min (Z.of_nat n) (room0 / amount) in
  exists a,
    ledger.store sys !! name = Some a
    /\ quota.Limit (Quota a) = quota.Limit (Quota a0)
    /\ quota.InUse (Quota a)
       = inUseAfter o (quota.InUse (Quota a0)) (amount * winners)
    /\ count ledger.succeeded (ledger.callers sys) = winners
    /\ Forall (fun p => p = ledger.Finished None
                        \/ p = ledger.Finished
                                 (Some (refusal o amount (room0 mod amount))))
         (ledger.callers sys).
Proof.
  intros Hs Hrun Hfin room0 winners.
  destruct (uniformInv_reachable s0 sys Hs Hrun)
    as (a & Hsa & Hlim & Hroom & Hpos & Hlen & Hall).
  pose proof (count_finished _ Hfin) as Hsplit. rewrite Hlen in Hsplit.
  pose proof (count_nonneg ledger.succeeded (ledger.callers sys)) as Hc.
  pose proof (count_nonneg ledger.failed (ledger.callers sys)) as Hf.
  assert (count ledger.succeeded (ledger.callers sys) = winners) as Hwin.
  { unfold winners.
    destruct (Z_lt_le_dec 0 (count ledger.failed (ledger.callers sys)))
      as [Hsome|Hnone].
    - apply count_pos in Hsome as (p & Hin & Hp).
      rewrite Forall_forall in Hall. pose proof (Hall p Hin) as Hok.
      destruct p as [| |[e|]]; simpl in Hp; try discriminate.
      destruct Hok as [_ Hlt].
      assert (count ledger.succeeded (ledger.callers sys) = room0 / amount)
        as Hdiv.
      { apply (Z.div_unique _ _ _ (roomFor o (Quota a))); unfold room0; lia. }
      lia.
    - assert (Z.of_nat n <= room0 / amount).
      { apply Z.div_le_lower_bound; [lia|]. unfold room0. nia. }
      lia. }
  exists a. split; [exact Hsa|]. split; [exact Hlim|].
  split; [|split; [exact Hwin|]].
  - rewrite Hwin in Hroom. clearbody winners. clear - Hroom Hlim.
    destruct o; simpl in *; lia.
  - apply Forall_forall. intros p Hin.
    rewrite Forall_forall in Hall. pose proof (Hall p Hin) as Hok.
    unfold ledger.all_finished in Hfin. rewrite forallb_forall in Hfin.
    specialize (Hfin p (proj1 (list_elem_of_In _ _) Hin)).
    destruct p as [| |[e|]]; simpl in Hfin; try discriminate.
    + right. destruct Hok as [-> _]. reflexivity.
    + left. reflexivity.
Qed.

End UniformCallers.

Lemma uniform_callers_final_witness :
  let room0 := roomFor ledger.Release (Quota togetherFull) in
  let winners := Z.min (Z.of_nat 20) (room0 / 3) in
  exists a,
    ledger.store releaseFinal !! "together" = Some a
    /\ quota.Limit (Quota a) = quota.Limit (Quota togetherFull)
    /\ quota.InUse (Quota a)
       = inUseAfter ledger.Release (quota.InUse (Quota togetherFull))
           (3 * winners)
    /\ count ledger.succeeded (ledger.callers releaseFinal) = winners
    /\ Forall (fun p => p = ledger.Finished None
                        \/ p = ledger.Finished
                                 (Some (refusal ledger.Release 3
                                          (room0 mod 3))))
         (ledger.callers releaseFinal).
Proof.
  apply (uniform_callers_final ledger.Release "together" 3 togetherFull 20)
    with (s0 := {["together" := togetherFull]});
    try (simpl; lia); try discriminate.
  - reflexivity.
  - apply schedule_run.
  - vm_compute. reflexivity.
Defined.

(** ** Callers of both operations *)

Lemma sumOf_insert {A : Type} (f : A -> Z) (l : list A) i x y :
  l !! i = Some x -> sumOf f (<[i := y]> l) = sumOf f l - f x + f y.
Proof.
  revert i. induction l as [|z l IH]; intros [|i] Hi; simpl in *;
    try discriminate.
  - injection Hi as ->. lia.
  - rewrite (IH i Hi). lia.
Qed.

Lemma sumOf_le {A : Type} (f g : A -> Z) c (l : list A) :
  (forall x, f x <= g x + c) ->
  sumOf f l <= sumOf g l + c * Z.of_nat (length l).
Proof.
  intros Hfg. induction l as [|x l IH]; simpl length; simpl sumOf;
    [lia | specialize (Hfg x); lia].
Qed.

Lemma sumOf_nonneg {A : Type} (f : A -> Z) (l : list A) :
  (forall x, 0 <= f x) -> 0 <= sumOf f l.
Proof. intros Hf. induction l as [|x l IH]; simpl; [lia | specialize (Hf x); lia]. Qed.

Lemma sumOf_zero {A : Type} (f : A -> Z) (l : list A) :
  Forall (fun x => f x = 0) l -> sumOf f l = 0.
Proof. induction 1; simpl; lia. Qed.

Lemma weight_moves u u' p : weight u' p <= weight u p + 2.
Proof. destruct p as [|q|e]; simpl; repeat case_decide; lia. Qed.

Lemma weight_nonneg u p : 0 <= weight u p.
Proof. destruct p as [|q|e]; simpl; try case_decide; lia. Qed.

Lemma unfinished_nonneg c : 0 <= unfinished c.
Proof. unfold unfinished. destruct (ledger.finished (callerAt c)); lia. Qed.

Lemma mixedInUse_lookup name (s : gmap string App) cs a :
  s !! name = Some a ->
  mixedInUse name {| mixedStore := s; mixedCallers := cs |}
  = quota.InUse (Quota a).
Proof. intros Hs. unfold mixedInUse, ledger.inUseOf. simpl. rewrite Hs. reflexivity. Qed.

Lemma gain_at o amount p :
  gain {| callerOp := o; callerAmount := amount; callerAt := p |}
  = if ledger.succeeded p then inUseAfter o 0 amount else 0.
Proof. reflexivity. Qed.

Lemma unfinished_at o amount p :
  unfinished {| callerOp := o; callerAmount := amount; callerAt := p |}
  = if ledger.finished p then 0 else 1.
Proof. reflexivity. Qed.

(** The sums after caller [i] moved. *)
Ltac caller_moved Hi :=
  rewrite !(sumOf_insert _ _ _ _ _ Hi); unfold moveTo; cbv beta;
  cbn [callerAt callerOp callerAmount]; rewrite !gain_at, !unfinished_at;
  cbn [ledger.succeeded ledger.finished weight].

Section MixedCallers.
Variables (name : string) (a0 : App).

Hypothesis in_use_at_start :
  0 <= quota.InUse (Quota a0) <= quota.Limit (Quota a0).

Lemma mixedInv_init (s0 : gmap string App) requests :
  s0 !! name = Some a0 ->
  Forall (fun r : ledger.op * Z => 0 <= r.2) requests ->
  mixedInv name a0 (mixedInit s0 requests).
Proof.
  intros Hs Hreq. exists a0. simpl. repeat split; try assumption; try lia.
  - rewrite (sumOf_zero gain); [lia|].
    apply Forall_forall. intros c [r [<- _]]%list_elem_of_In%in_map_iff.
    reflexivity.
  - apply Forall_forall. intros c [r [<- Hr]]%list_elem_of_In%in_map_iff.
    rewrite Forall_forall in Hreq.
    repeat split; simpl; try discriminate.
    apply Hreq, list_elem_of_In, Hr.
Qed.

(** Every access keeps the invariant and uses up some of the measure. *)
Lemma mixed_step_inv sys sys' :
  mixedInv name a0 sys -> mixed_step name sys sys' ->
  mixedInv name a0 sys'
  /\ mixedMeasure name sys' < mixedMeasure name sys.
Proof.
  intros (a & Hs & Hlim & Hsum & Hbounds & Hall) Hstep.
  destruct Hstep as [i [o amount p] acc p' s' [s cs] Hi Hp]. simpl in *.
  pose proof (Forall_lookup_1 _ _ _ _ Hall Hi) as (Hamount & Hrefused & Hread).
  simpl in Hamount, Hrefused, Hread.
  pose proof (sumOf_nonneg unfinished cs unfinished_nonneg) as Hunf.
  assert (0 < Z.of_nat (length cs)) as Hlen.
  { destruct cs; [discriminate | simpl; lia]. }
  unfold mixedInv, mixedMeasure. simpl mixedStore. simpl mixedCallers.
  rewrite length_insert.
  rewrite (mixedInUse_lookup name s cs a Hs).
  destruct p as [|q|e].
  - (* the caller reads the app *)
    simpl in Hp. rewrite Hs in Hp. injection Hp as <- <- <-.
    rewrite (mixedInUse_lookup name s _ a Hs).
    caller_moved Hi. case_decide; [|contradiction]. split; [|lia].
    exists a. repeat split; try assumption; try lia.
    apply Forall_insert; [exact Hall|].
    repeat split; simpl; try assumption; try discriminate.
    intros q [= <-]. exact Hlim.
  - (* the caller decides on its snapshot *)
    specialize (Hread q eq_refl).
    assert (quota.IsUnlimited q = false) as Hunl.
    { unfold quota.IsUnlimited. rewrite Hread. simpl.
      destruct (Z.eqb_spec (quota.Limit (Quota a0)) (-1)); [lia|reflexivity]. }
    assert (ledger.step ErrAppNotFound o name amount (ledger.Read q) s
            = Some (if amount >? roomFor o q
                    then (ledger.Rejected,
                          ledger.Finished
                            (Some (refusal o amount (roomFor o q))), s)
                    else ledger.commit name q
                           (inUseAfter o (quota.InUse q) amount) s)) as Hdec.
    { destruct o; simpl; rewrite ?Hunl;
        match goal with |- context [?x >? ?y] => destruct (x >? y) end;
        reflexivity. }
    rewrite Hdec in Hp. clear Hdec.
    destruct (Z.gtb_spec amount (roomFor o q)) as [Hfull|Hfits].
    + (* not enough left: the caller is refused *)
      injection Hp as <- <- <-.
      rewrite (mixedInUse_lookup name s _ a Hs).
      caller_moved Hi.
      pose proof (weight_nonneg (quota.InUse (Quota a)) (ledger.Read q)) as Hw.
      simpl in Hw. split; [|nia].
      exists a. repeat split; try assumption; try lia.
      apply Forall_insert; [exact Hall|].
      repeat split; simpl; try assumption; try discriminate.
      intros err [= <-]. exists (roomFor o q). auto.
    + unfold ledger.commit, ledger.conditionalUpdate in Hp.
      rewrite Hs in Hp. case_decide as Hcas; simpl in Hcas.
      * (* the conditional update goes through *)
        injection Hp as <- <- <-.
        rewrite (mixedInUse_lookup name _ _ _ (lookup_insert_eq s name _)).
        caller_moved Hi.
        cbn [Quota ledger.setInUse setQuota app_owner withQuota quota.InUse
             quota.withInUse quota.Limit quotaOf].
        split.
        -- eexists. rewrite lookup_insert_eq. split; [reflexivity|].
           cbn [Quota withQuota quota.InUse quota.withInUse quota.Limit].
           repeat split; try assumption.
           ++ destruct o; simpl in *; lia.
           ++ destruct o; simpl in *; lia.
           ++ destruct o; simpl in *; lia.
           ++ apply Forall_insert; [exact Hall|].
              repeat split; simpl; try assumption; discriminate.
        -- pose proof (sumOf_le
                         (fun c => weight (inUseAfter o (quota.InUse q) amount)
                                     (callerAt c))
                         (fun c => weight (quota.InUse (Quota a)) (callerAt c))
                         2 cs
                         (fun c => weight_moves _ _ (callerAt c))) as Hw.
           repeat case_decide; nia.
      * (* another caller was faster: start again *)
        injection Hp as <- <- <-.
        rewrite (mixedInUse_lookup name s _ a Hs).
        caller_moved Hi. case_decide; [lia|]. split; [|lia].
        exists a. repeat split; try assumption; try lia.
        apply Forall_insert; [exact Hall|].
        repeat split; simpl; try assumption; discriminate.
  - discriminate.
Qed.

Lemma mixedInv_reachable (s0 : gmap string App) requests sys :
  s0 !! name = Some a0 ->
  Forall (fun r : ledger.op * Z => 0 <= r.2) requests ->
  rtc (mixed_step name) (mixedInit s0 requests) sys ->
  mixedInv name a0 sys.
Proof.
  intros Hs Hreq. revert sys.
  apply (rtc_ind_r (mixedInv name a0) (mixedInit s0 requests)).
  - exact (mixedInv_init s0 requests Hs Hreq).
  - intros mid sys _ Hstep IH. exact (proj1 (mixed_step_inv mid sys IH Hstep)).
Qed.

(** X15: callers that reserve and callers that release, each its own
    amount, none negative, on one app whose units in use lie between 0
    and its limit; their accesses to the store interleave in any order.
    At every moment of the run the units in use are those of the start,
    plus what the reservations that succeeded asked for, minus what the
    releases that succeeded gave back - no update is lost -, they lie
    between 0 and the limit, the limit is untouched, and every caller
    that returned an error was refused for its own amount. *)
Theorem mixed_callers_conserve (s0 : gmap string App) requests sys :
  s0 !! name = Some a0 ->
  Forall (fun r : ledger.op * Z => 0 <= r.2) requests ->
  rtc (mixed_step name) (mixedInit s0 requests) sys ->
  exists a,
    mixedStore sys !! name = Some a
    /\ quota.Limit (Quota a) = quota.Limit (Quota a0)
    /\ quota.InUse (Quota a)
       = quota.InUse (Quota a0) + sumOf gain (mixedCallers sys)
    /\ 0 <= quota.InUse (Quota a) <= quota.Limit (Quota a)
    /\ Forall refusedForItsAmount (mixedCallers sys).
Proof.
  intros Hs Hreq Hrun.
  destruct (mixedInv_reachable s0 requests sys Hs Hreq Hrun)
    as (a & Hsa & Hlim & Hsum & Hbounds & Hall).
  exists a. repeat split; try assumption; try lia.
  eapply Forall_impl; [exact Hall|]. intros c (_ & Hrefused & _).
  exact Hrefused.
Qed.

Lemma mixedMeasure_init (s0 : gmap string App) requests :
  s0 !! name = Some a0 ->
  mixedMeasure name (mixedInit s0 requests)
  = 2 * Z.of_nat (length requests) * (Z.of_nat (length requests) + 1).
Proof.
  intros Hs. unfold mixedMeasure, mixedInit. simpl mixedCallers.
  rewrite length_map.
  assert (forall u,
    sumOf (fun c => weight u (callerAt c))
      (map (fun r : ledger.op * Z =>
              {| callerOp := r.1; callerAmount := r.2;
                 callerAt := ledger.Start |}) requests)
    = 2 * Z.of_nat (length requests)) as ->.
  { intros u. induction requests as [|r l IH]; simpl length; simpl sumOf;
      [reflexivity | rewrite IH; simpl; lia]. }
  assert (sumOf unfinished
            (map (fun r : ledger.op * Z =>
                    {| callerOp := r.1; callerAmount := r.2;
                       callerAt := ledger.Start |}) requests)
          = Z.of_nat (length requests)) as ->.
  { induction requests as [|r l IH]; simpl length; simpl sumOf;
      [reflexivity | rewrite IH; unfold unfinished; simpl; lia]. }
  lia.
Qed.

Lemma mixedMeasure_nonneg sys : 0 <= mixedMeasure name sys.
Proof.
  unfold mixedMeasure.
  pose proof (sumOf_nonneg (fun c => weight (mixedInUse name sys) (callerAt c))
                (mixedCallers sys)
                (fun c => weight_nonneg _ (callerAt c))).
  pose proof (sumOf_nonneg unfinished (mixedCallers sys) unfinished_nonneg).
  nia.
Qed.

Lemma mixed_run_bounded (s0 : gmap string App) requests k sys :
  s0 !! name = Some a0 ->
  Forall (fun r : ledger.op * Z => 0 <= r.2) requests ->
  nsteps (mixed_step name) k (mixedInit s0 requests) sys ->
  mixedInv name a0 sys
  /\ mixedMeasure name sys + Z.of_nat k
     <= mixedMeasure name (mixedInit s0 requests).
Proof.
  intros Hs Hreq. revert sys. induction k as [|k IH]; intros sys Hrun.
  - inversion Hrun; subst. split; [exact (mixedInv_init s0 requests Hs Hreq)|].
    lia.
  - apply nsteps_inv_r in Hrun as (mid & Hrun & Hstep).
    destruct (IH mid Hrun) as [Hinv Hm].
    destruct (mixed_step_inv mid sys Hinv Hstep) as [Hinv' Hlt].
    split; [exact Hinv' | lia].
Qed.

(** X16: the same callers always return: as long as one of them has
    not returned, some caller can make an access, and no run of [n]
    callers makes more than [2 n (n + 1)] accesses to the store - the
    retries of the conditional update are bounded, because a caller
    starts again only when another caller has succeeded. *)
Theorem mixed_callers_return (s0 : gmap string App) requests sys :
  s0 !! name = Some a0 ->
  Forall (fun r : ledger.op * Z => 0 <= r.2) requests ->
  rtc (mixed_step name) (mixedInit s0 requests) sys ->
  (0 < sumOf unfinished (mixedCallers sys) ->
   exists sys', mixed_step name sys sys')
  /\ forall k,
       nsteps (mixed_step name) k (mixedInit s0 requests) sys ->
       Z.of_nat k
       <= 2 * Z.of_nat (length requests) * (Z.of_nat (length requests) + 1).
Proof.
  intros Hs Hreq Hrun. split.
  - destruct (mixedInv_reachable s0 requests sys Hs Hreq Hrun)
      as (a & Hsa & _ & _ & _ & Hall).
    intros Hsome.
    assert (exists i c, mixedCallers sys !! i = Some c
                        /\ ledger.finished (callerAt c) = false)
      as (i & c & Hi & Hc).
    { clear - Hsome. induction (mixedCallers sys) as [|c l IH];
        simpl in Hsome; [lia|].
      destruct (ledger.finished (callerAt c)) eqn:Hc.
      - unfold unfinished in Hsome at 1. rewrite Hc in Hsome.
        destruct IH as (i & c' & Hi & Hc'); [lia|]. exists (S i), c'. auto.
      - exists 0%nat, c. auto. }
    destruct (Forall_lookup_1 _ _ _ _ Hall Hi) as (_ & _ & Hread).
    destruct (ledger.step ErrAppNotFound (callerOp c) name (callerAmount c)
                (callerAt c) (mixedStore sys)) as [[[acc p'] s']|] eqn:Hstep.
    + eexists. eapply mixed_step_caller; eassumption.
    + exfalso. destruct (callerAt c) as [|q|e]; simpl in Hstep, Hc;
        try discriminate.
      * rewrite Hsa in Hstep. discriminate.
      * destruct (callerOp c); simpl in Hstep;
          repeat match type of Hstep with
                 | context [if ?b then _ else _] => destruct b
                 | context [match ?x with _ => _ end] => destruct x
                 end; discriminate.
  - intros k Hk.
    destruct (mixed_run_bounded s0 requests k sys Hs Hreq Hk) as [_ Hm].
    rewrite (mixedMeasure_init s0 requests Hs) in Hm.
    pose proof (mixedMeasure_nonneg sys). lia.
Qed.

End MixedCallers.

Lemma mixed_schedule_run name sched sys :
  rtc (mixed_step name) sys (mixed_schedule name sys sched).
Proof.
  revert sys. induction sched as [|i sched IH]; intros sys; simpl.
  - apply rtc_refl.
  - unfold mixed_schedule in *. simpl.
    unfold mixed_schedule_one at 2.
    destruct (mixedCallers sys !! i) as [c|] eqn:Hi; [|apply IH].
    destruct (ledger.step ErrAppNotFound (callerOp c) name (callerAmount c)
                (callerAt c) (mixedStore sys))
      as [[[acc p'] s']|] eqn:Hstep; [|apply IH].
    eapply rtc_l; [|apply IH].
    eapply mixed_step_caller; eassumption.
Qed.

Lemma sevenRequests_nonneg :
  Forall (fun r : ledger.op * Z => 0 <= r.2) sevenRequests.
Proof. repeat constructor; simpl; lia. Qed.

Lemma mixed_callers_conserve_witness :
  exists a,
    mixedStore sevenFinal !! "together" = Some a
    /\ quota.Limit (Quota a) = quota.Limit (Quota sevenApp)
    /\ quota.InUse (Quota a)
       = quota.InUse (Quota sevenApp) + sumOf gain (mixedCallers sevenFinal)
    /\ 0 <= quota.InUse (Quota a) <= quota.Limit (Quota a)
    /\ Forall refusedForItsAmount (mixedCallers sevenFinal).
Proof.
  apply (mixed_callers_conserve "together" sevenApp)
    with (s0 := {["together" := sevenApp]}) (requests := sevenRequests).
  - simpl. lia.
  - reflexivity.
  - exact sevenRequests_nonneg.
  - apply mixed_schedule_run.
Defined.

Lemma mixed_callers_return_witness :
  (0 < sumOf unfinished (mixedCallers sevenFinal) ->
   exists sys', mixed_step "together" sevenFinal sys')
  /\ forall k,
       nsteps (mixed_step "together") k
         (mixedInit {["together" := sevenApp]} sevenRequests) sevenFinal ->
       Z.of_nat k
       <= 2 * Z.of_nat (length sevenRequests)
          * (Z.of_nat (length sevenRequests) + 1).
Proof.
  apply (mixed_callers_return "together" sevenApp).
  - simpl. lia.
  - reflexivity.
  - exact sevenRequests_nonneg.
  - apply mixed_schedule_run.
Defined.

(** * How the actions compose in a pipeline *)

Lemma insertApp_Forward_taken p0 app rest prev w taken :
  asApp p0 = Some app ->
  db.Conn w = None ->
  apps w !! Name app = Some taken ->
  insertApp_Forward
    {| action.Previous := prev; action.Params := p0 :: rest |} w
  = (action.Return VNil (Some ErrAppAlreadyExists), w).
Proof.
  intros Happ Hconn Htaken. unfold insertApp_Forward, db.AppsInsert.
  apply asApp_Some in Happ as [-> | ->]; cbn -[config.GetInt];
    rewrite Hconn; destruct (config.GetInt _ w); cbn; rewrite Htaken;
    reflexivity.
Qed.

Lemma run_reserve_room {A : Type} {OA : Owner A} notFound name k amount
    (s : gmap string A) a :
  s !! name = Some a ->
  quota.IsUnlimited (quotaOf a) = true
  \/ amount <= quota.Limit (quotaOf a) - quota.InUse (quotaOf a) ->
  exists tr,
    ledger.run (S (S k)) notFound ledger.Reserve name amount ledger.Start s
    = Some (None,
            <[name := ledger.setInUse a (quota.InUse (quotaOf a) + amount)]> s,
            tr).
Proof.
  intros Hs Hroom. destruct (quota.IsUnlimited (quotaOf a)) eqn:Hunl.
  - eexists. exact (run_reserve_unlimited notFound name k amount s a Hs Hunl).
  - destruct Hroom as [|Hle]; [discriminate|].
    eexists. exact (run_reserve_ok notFound name k amount s a Hs Hunl Hle).
Qed.

(** X17: creating an app whose name is taken does not cost the user an
    app: in the pipeline that reserves the app for the user and then
    inserts the record, when the user has room in the quota and the name
    is already stored, the executor calls the two forwards, then the
    backward of the reservation, reports [ErrAppAlreadyExists] and
    leaves the world as it was before the run. *)
Theorem creation_with_taken_name_releases_the_app
    fuel p0 app p1 user rest seed w usr taken :
  (2 <= fuel)%nat ->
  asApp p0 = Some app ->
  asUser p1 = Some user ->
  db.Conn w = None ->
  keyedByEmail (users w) ->
  users w !! auth.Email user = Some usr ->
  0 <= quota.InUse (auth.Quota usr) ->
  quota.IsUnlimited (auth.Quota usr) = true
  \/ 1 <= quota.Limit (auth.Quota usr) - quota.InUse (auth.Quota usr) ->
  apps w !! Name app = Some taken ->
  action.Execute [reserveUserApp fuel; insertApp] (p0 :: p1 :: rest) seed w
  = (action.Failed ErrAppAlreadyExists, w,
     [action.CallForward 0; action.CallForward 1;
      action.CallBackward 0; action.ReturnBackward 0]).
Proof.
  intros [k ->]%fuel_two Happ Huser Hconn Hkeyed Hs Hpos Hroom Htaken.
  unfold action.Execute.
  cbn [action.execute_from action.MinParams reserveUserApp insertApp
       action.Forward length Nat.ltb Nat.leb].
  rewrite (reserveUserApp_Forward_stored _ _ _ _ _ _ _ _ _
             Happ Huser Hconn Hs).
  unfold ReserveApp. rewrite (Hkeyed _ _ Hs).
  destruct (run_reserve_room (OA := user_owner) auth.ErrUserNotFound
              (auth.Email user) k 1 (users w) usr Hs Hroom) as [tr ->].
  rewrite (insertApp_Forward_taken p0 app (p1 :: rest) _ _ taken Happ);
    [|exact Hconn|exact Htaken].
  unfold action.unwind.
  cbn [action.rollback action.Backward reserveUserApp].
  change (quotaOf usr) with (auth.Quota usr).
  rewrite (reserveUserApp_Backward_reserved k (auth.Email user) (Name app)
             (p0 :: p1 :: rest) w usr Hconn Hs (Hkeyed _ _ Hs) Hpos).
  reflexivity.
Qed.

Lemma creation_with_taken_name_releases_the_app_witness :
  let w := mkWorld [clapApp] [clapUser] in
  action.Execute [reserveUserApp 2; insertApp] clapParams VNil w
  = (action.Failed ErrAppAlreadyExists, w,
     [action.CallForward 0; action.CallForward 1;
      action.CallBackward 0; action.ReturnBackward 0]).
Proof.
  intros w.
  apply (creation_with_taken_name_releases_the_app 2 (VApp clapApp) clapApp
           (VUser clapUser) clapUser [] VNil w clapUser clapApp);
    first [ reflexivity | apply mkWorld_keyedByEmail | simpl; lia ].
Defined.

Lemma reserveUnitsToAdd_Forward_room k p0 app p1 n rest prev w stored :
  asApp p0 = Some app ->
  asInt p1 = Some n ->
  db.Conn w = None ->
  keyedByName (apps w) ->
  apps w !! Name app = Some stored ->
  quota.IsUnlimited (Quota stored) = true
  \/ n <= quota.Limit (Quota stored) - quota.InUse (Quota stored) ->
  reserveUnitsToAdd_Forward (S (S k))
    {| action.Previous := prev; action.Params := p0 :: p1 :: rest |} w
  = (action.Return (VInt n) None,
     withApps w
       (<[Name app :=
            ledger.setInUse stored (quota.InUse (Quota stored) + n)]>
          (apps w))).
Proof.
  intros Happ Hn Hconn Hkeyed Hs Hroom.
  rewrite (reserveUnitsToAdd_Forward_stored _ _ _ _ _ _ _ _ _
             Happ Hn Hconn Hs).
  unfold reserveUnits. rewrite (Hkeyed _ _ Hs).
  destruct (run_reserve_room (OA := app_owner) ErrAppNotFound (Name app) k n
              (apps w) stored Hs Hroom) as [tr ->].
  reflexivity.
Qed.

Section Scaling.
Variable AddUnits : App -> Z -> World -> (list provision.Unit + error) * World.
Variable RemoveUnit : App -> string -> World -> World.
Variable AddUnit : App -> Unit -> App.
Variable StatusBuilding_String : string.
Variables RegenerateApprcAndStart BindService : string.

(** X18: when the provisioner refuses to add the units, the units that
    were reserved for them are released: in the pipeline that reserves
    the units, asks the provisioner for them and saves them, if there is
    room in the quota of the app and the provisioner fails without
    touching the world, the executor calls the first two forwards, then
    the backward of the reservation, reports the error of the
    provisioner and leaves the world as it was before the run; nothing
    is saved and nothing is enqueued. *)
Theorem scaling_releases_the_units_when_provisioning_fails
    fuel p0 app p1 n rest seed w stored err :
  (2 <= fuel)%nat ->
  asApp p0 = Some app ->
  asInt p1 = Some n ->
  db.Conn w = None ->
  keyedByName (apps w) ->
  apps w !! Name app = Some stored ->
  0 <= quota.InUse (Quota stored) ->
  quota.IsUnlimited (Quota stored) = true
  \/ n <= quota.Limit (Quota stored) - quota.InUse (Quota stored) ->
  (forall w1, AddUnits app (uint_of_int n) w1 = (inr err, w1)) ->
  action.Execute
    [reserveUnitsToAdd fuel;
     provisionAddUnits AddUnits RemoveUnit;
     saveNewUnitsInDatabase AddUnit StatusBuilding_String
       RegenerateApprcAndStart BindService]
    (p0 :: p1 :: rest) seed w
  = (action.Failed err, w,
     [action.CallForward 0; action.CallForward 1;
      action.CallBackward 0; action.ReturnBackward 0]).
Proof.
  intros [k ->]%fuel_two Happ Hn Hconn Hkeyed Hs Hpos Hroom Hfails.
  unfold action.Execute.
  cbn [action.execute_from action.MinParams reserveUnitsToAdd
       provisionAddUnits action.Forward length Nat.ltb Nat.leb].
  rewrite (reserveUnitsToAdd_Forward_room k p0 app p1 n rest seed w stored
             Happ Hn Hconn Hkeyed Hs Hroom).
  assert (provisionAddUnits_Forward AddUnits
            {| action.Previous := VInt n;
               action.Params := p0 :: p1 :: rest |}
            (withApps w
               (<[Name app :=
                    ledger.setInUse stored (quota.InUse (Quota stored) + n)]>
                  (apps w)))
          = (action.Return VNil (Some err),
             withApps w
               (<[Name app :=
                    ledger.setInUse stored (quota.InUse (Quota stored) + n)]>
                  (apps w)))) as ->.
  { unfold provisionAddUnits_Forward.
    apply asApp_Some in Happ as [-> | ->];
      cbn [action.Params action.Previous]; simpl lookup; cbv beta iota;
      rewrite Hfails; reflexivity. }
  unfold action.unwind.
  cbn [action.rollback action.Backward reserveUnitsToAdd].
  rewrite (reserveUnitsToAdd_Backward_reserved k p0 app n (p1 :: rest) w
             stored Happ Hs Hpos).
  reflexivity.
Qed.

End Scaling.

Lemma scaling_releases_the_units_when_provisioning_fails_witness :
  let err := errors_New "Failed to add units" in
  let w := mkWorld [visionsRoom] [] in
  action.Execute
    [reserveUnitsToAdd 2;
     provisionAddUnits (fun _ _ w => (inr err, w)) (fun _ _ w => w);
     saveNewUnitsInDatabase appendUnit "building"
       "regenerate-apprc-start-app" "bind-service"]
    [VAppPtr visionsRoom; VInt 3] VNil w
  = (action.Failed err, w,
     [action.CallForward 0; action.CallForward 1;
      action.CallBackward 0; action.ReturnBackward 0]).
Proof.
  intros err w.
  apply (scaling_releases_the_units_when_provisioning_fails
           (fun _ _ w => (inr err, w)) (fun _ _ w => w) appendUnit "building"
           "regenerate-apprc-start-app" "bind-service" 2
           (VAppPtr visionsRoom) visionsRoom (VInt 3) 3 [] VNil w
           visionsRoom err);
    first [ reflexivity | apply mkWorld_keyedByName | simpl; lia ].
Defined.

(** * [reserveUnits] and [releaseUnits], one call after another *)

(** X19: a reservation that fits followed by one that does not: for an
    app with a limited quota, [reserveUnits] of an amount that fits in
    the free units succeeds and stores them as used; a second
    [reserveUnits] of more than what is then left is refused with a
    [QuotaExceededError] that carries the amount requested and the units
    still available, and changes nothing. *)
Theorem reserveUnits_then_quota_exceeded fuel app stored first second w :
  (2 <= fuel)%nat ->
  apps w !! Name app = Some stored ->
  quota.IsUnlimited (Quota stored) = false ->
  first <= quota.Limit (Quota stored) - quota.InUse (Quota stored) ->
  quota.Limit (Quota stored) - quota.InUse (Quota stored) - first < second ->
  exists w1,
    reserveUnits fuel app first w = Some (None, w1)
    /\ ledger.inUseOf (Name app) (apps w1)
       = Some (quota.InUse (Quota stored) + first)
    /\ reserveUnits fuel app second w1
       = Some (Some (QuotaExceededError second
                       (quota.Limit (Quota stored)
                        - quota.InUse (Quota stored) - first)),
               w1).
Proof.
  intros [k ->]%fuel_two Hs Hunl Hfits Hover. unfold reserveUnits.
  rewrite (run_reserve_ok (OA := app_owner) ErrAppNotFound (Name app) k first
             (apps w) stored Hs Hunl Hfits).
  eexists. split; [reflexivity|].
  cbn [apps withApps]. unfold ledger.inUseOf. rewrite lookup_insert_eq.
  split; [reflexivity|].
  rewrite (run_reserve_exceeded (OA := app_owner) ErrAppNotFound (Name app) k
             second _ _ (lookup_insert_eq (apps w) (Name app) _)).
  - rewrite withApps_withApps. simpl. do 4 f_equal. lia.
  - exact Hunl.
  - simpl. lia.
Qed.

Lemma reserveUnits_then_quota_exceeded_witness :
  let app := mkApp "together" "" {| quota.Limit := 7; quota.InUse := 0 |} in
  let w := mkWorld [app] [] in
  exists w1,
    reserveUnits 2 app 6 w = Some (None, w1)
    /\ ledger.inUseOf (Name app) (apps w1) = Some (quota.InUse (Quota app) + 6)
    /\ reserveUnits 2 app 2 w1
       = Some (Some (QuotaExceededError 2
                       (quota.Limit (Quota app) - quota.InUse (Quota app) - 6)),
               w1).
Proof.
  intros app w.
  apply (reserveUnits_then_quota_exceeded 2 app app 6 2 w);
    first [ reflexivity | simpl; lia ].
Defined.

(** X20: for an app that is not stored, [reserveUnits] and
    [releaseUnits] both return [ErrAppNotFound] after a single access to
    the store, whatever the amount, and leave the world as it is. *)
Theorem reserveUnits_releaseUnits_app_not_found fuel app amount w :
  (1 <= fuel)%nat ->
  apps w !! Name app = None ->
  reserveUnits fuel app amount w = Some (Some ErrAppNotFound, w)
  /\ releaseUnits fuel app amount w = Some (Some ErrAppNotFound, w)
  /\ ledger.run fuel ErrAppNotFound ledger.Reserve (Name app) amount
       ledger.Start (apps w)
     = Some (Some ErrAppNotFound, apps w, [ledger.Find]).
Proof.
  intros Hfuel Habsent. destruct fuel as [|k]; [lia|].
  unfold reserveUnits, releaseUnits.
  rewrite !(run_not_found (OA := app_owner) ErrAppNotFound (Name app) k _
              amount (apps w) Habsent).
  rewrite withApps_same. repeat split.
Qed.

Lemma reserveUnits_releaseUnits_app_not_found_witness :
  let app := mkApp "together" "" {| quota.Limit := 7; quota.InUse := 7 |} in
  let w := mkWorld [] [] in
  reserveUnits 1 app 6 w = Some (Some ErrAppNotFound, w)
  /\ releaseUnits 1 app 6 w = Some (Some ErrAppNotFound, w)
  /\ ledger.run 1 ErrAppNotFound ledger.Reserve (Name app) 6
       ledger.Start (apps w)
     = Some (Some ErrAppNotFound, apps w, [ledger.Find]).
Proof.
  intros app w.
  apply (reserveUnits_releaseUnits_app_not_found 1 app 6 w);
    [lia | reflexivity].
Defined.
